(** * Oceanic VEO 250 backend (oceanic_veo250.c): frame transfer and packetized read

    A shallow embedding of the protocol code of [oceanic_veo250.c].  The serial
    line is an external collaborator: the code is written against the
    interface of [serial.h], which is rendered here as the class [Serial];
    every function threads the state of the line explicitly.  Bytes are
    integers in [0, 256); [unsigned int] arithmetic is written with its
    wrap-around at 2^32. *)

From Stdlib Require Import ZArith List Bool Lia.
From Stdlib Require String.
Import ListNotations.
Local Open Scope Z_scope.

(** ** Status codes and results *)

(** The members of [device_status_t] that the file returns. *)
Inductive device_status_t : Type :=
| DEVICE_STATUS_SUCCESS
| DEVICE_STATUS_TYPE_MISMATCH
| DEVICE_STATUS_ERROR
| DEVICE_STATUS_IO
| DEVICE_STATUS_MEMORY
| DEVICE_STATUS_PROTOCOL
| DEVICE_STATUS_TIMEOUT.

(** A call either returns, or stops in a failed [assert], or is still
    looping when the iteration budget of the model is used up. *)
Inductive outcome (A : Type) : Type :=
| Returns (a : A)
| AssertionFailed
| OutOfFuel.
Arguments Returns {A} a.
Arguments AssertionFailed {A}.
Arguments OutOfFuel {A}.

Definition bind {A B : Type} (m : outcome A) (k : A -> outcome B) : outcome B :=
  match m with
  | Returns a => k a
  | AssertionFailed => AssertionFailed
  | OutOfFuel => OutOfFuel
  end.

Notation "' pat <- m ;; k" := (bind m (fun x => match x with pat => k end))
  (at level 61, pat pattern, m at next level, right associativity).

(** [assert (c)] *)
Definition assert {A : Type} (c : bool) (k : outcome A) : outcome A :=
  if c then k else AssertionFailed.

(** ** Constants *)

Definition MAXRETRIES : Z := 2.
Definition ACK : Z := 0x5A.
Definition NAK : Z := 0xA5.

(** [EXITCODE(rc)] *)
Definition EXITCODE (rc : Z) : device_status_t :=
  if rc =? -1 then DEVICE_STATUS_IO else DEVICE_STATUS_TIMEOUT.

(** The two constants of [oceanic_veo250.h], which the code only names. *)
Class Veo250Header : Type := {
  OCEANIC_VEO250_PACKET_SIZE : Z;
  OCEANIC_VEO250_MEMORY_SIZE : Z
}.

(** Wrap-around of [unsigned int]. *)
Definition uint (x : Z) : Z := x mod 2 ^ 32.

(** ** The serial line ([serial.h])

    Each primitive returns its [int] result and the new state of the line.
    [serial_read p size] also yields the bytes it stored at the start of the
    destination buffer. *)
Class Serial (port : Type) : Type := {
  serial_write : port -> list Z -> Z -> Z * port;
  serial_drain : port -> Z * port;
  serial_read : port -> Z -> (Z * list Z) * port;
  serial_close : port -> Z * port
}.

(** ** Buffers *)

Definition zeros (n : Z) : list Z := repeat 0 (Z.to_nat n).

(** [buf[i]] *)
Definition byte_at (buf : list Z) (i : Z) : Z := nth (Z.to_nat i) buf 0.

(** The effect on [buf] of a read of at most [size] bytes that delivered
    [bytes]: they replace the start of the buffer. *)
Definition read_into (buf : list Z) (size : Z) (bytes : list Z) : list Z :=
  let got := firstn (Z.to_nat size) bytes in
  got ++ skipn (length got) buf.

(** [memcpy (dst + off, src, n)], for a destination that has room for it. *)
Definition memcpy (dst : list Z) (off : Z) (src : list Z) (n : Z) : list Z :=
  firstn (Z.to_nat off) dst ++ firstn (Z.to_nat n) src
    ++ skipn (Z.to_nat (off + n)) dst.

(** [memcmp (a, b, n) != 0] on two buffers of [n] bytes. *)
Definition bytes_differ (a b : list Z) : bool :=
  if list_eq_dec Z.eq_dec a b then false else true.

Definition sum_bytes (l : list Z) : Z := fold_right Z.add 0 l.

(** Modelled from the spec: [checksum_add_uint8] of [checksum.h], whose body
    is not part of this file: the sum of the first [size] bytes plus the
    seed, truncated to 8 bits. *)
Definition checksum_add_uint8 (data : list Z) (size : Z) (init : Z) : Z :=
  (init + sum_bytes (firstn (Z.to_nat size) data)) mod 256.

(** ** Device handles

    A [device_t *] is NULL or points to an object whose [backend] field
    designates a backend table. *)
Inductive backend_ref : Type :=
| oceanic_veo250_device_backend
| other_device_backend (id : nat).

Record device_t : Type := { backend : backend_ref }.

Definition backend_eqb (a b : backend_ref) : bool :=
  match a, b with
  | oceanic_veo250_device_backend, oceanic_veo250_device_backend => true
  | other_device_backend i, other_device_backend j => Nat.eqb i j
  | _, _ => false
  end.

Definition device_is_oceanic_veo250 (abstract : option device_t) : bool :=
  match abstract with
  | None => false
  | Some d => backend_eqb (backend d) oceanic_veo250_device_backend
  end.

(** ** The protocol *)

Section Protocol.

Context {hdr : Veo250Header} {port : Type} {line : Serial port}.

Definition oceanic_veo250_send (p : port) (command : list Z) (csize : Z)
  : device_status_t * port :=
  let '(_, p1) := serial_write p command csize in
  let '(_, p2) := serial_drain p1 in
  (DEVICE_STATUS_SUCCESS, p2).

(** The retry loop of [oceanic_veo250_transfer].  The result is [inl rc] when
    the function returns [rc] from inside the loop and [inr response] when
    the loop is left. *)
Fixpoint transfer_loop (fuel : nat) (p : port) (command : list Z) (csize : Z)
  (nretries : Z) (response : Z) : outcome ((device_status_t + Z) * port) :=
  match fuel with
  | O => OutOfFuel
  | S fuel' =>
    if response =? NAK then
      let '(rc, p1) := oceanic_veo250_send p command csize in
      match rc with
      | DEVICE_STATUS_SUCCESS =>
        let '((n, bytes), p2) := serial_read p1 1 in
        if negb (n =? 1) then Returns (inl (EXITCODE n), p2)
        else
          let response' := byte_at (read_into [response] 1 bytes) 0 in
          if nretries >=? MAXRETRIES then Returns (inr response', p2)
          else transfer_loop fuel' p2 command csize (nretries + 1) response'
      | _ => Returns (inl rc, p1)
      end
    else Returns (inr response, p)
  end.

Definition oceanic_veo250_transfer (p : port) (command : list Z) (csize : Z)
  (answer : list Z) (asize : Z) : outcome (device_status_t * list Z * port) :=
  assert (asize =? OCEANIC_VEO250_PACKET_SIZE + 2) (
  ' (exit, p1) <- transfer_loop (S (Z.to_nat MAXRETRIES)) p command csize 0 NAK ;;
  match exit with
  | inl rc => Returns (rc, answer, p1)
  | inr response =>
    if negb (response =? ACK) then Returns (DEVICE_STATUS_PROTOCOL, answer, p1)
    else
      let '((n, bytes), p2) := serial_read p1 (OCEANIC_VEO250_PACKET_SIZE + 2) in
      let answer1 := read_into answer (OCEANIC_VEO250_PACKET_SIZE + 2) bytes in
      if negb (n =? OCEANIC_VEO250_PACKET_SIZE + 2)
      then Returns (EXITCODE n, answer1, p2)
      else
        let crc := byte_at answer1 OCEANIC_VEO250_PACKET_SIZE in
        let ccrc := checksum_add_uint8 answer1 OCEANIC_VEO250_PACKET_SIZE 0x00 in
        if negb (crc =? ccrc) then Returns (DEVICE_STATUS_PROTOCOL, answer1, p2)
        else if negb (byte_at answer1 (OCEANIC_VEO250_PACKET_SIZE + 1) =? NAK)
        then Returns (DEVICE_STATUS_PROTOCOL, answer1, p2)
        else Returns (DEVICE_STATUS_SUCCESS, answer1, p2)
  end).

Definition oceanic_veo250_init (p : port) : device_status_t * port :=
  let command := [0x55; 0x00] in
  let '(rc, p1) := oceanic_veo250_send p command 2 in
  match rc with
  | DEVICE_STATUS_SUCCESS => (DEVICE_STATUS_SUCCESS, p1)
  | _ => (rc, p1)
  end.

(** The banner [PPS--OK_V2.00] and its terminating zero. *)
Definition handshake_response : list Z :=
  [0x50; 0x50; 0x53; 0x2D; 0x2D; 0x4F; 0x4B;
   0x5F; 0x56; 0x32; 0x2E; 0x30; 0x30; 0x00].

Definition oceanic_veo250_handshake (p : port) : device_status_t * port :=
  let command := [0x98; 0x00] in
  let '(rc, p1) := oceanic_veo250_send p command 2 in
  match rc with
  | DEVICE_STATUS_SUCCESS =>
    let '((n, bytes), p2) := serial_read p1 14 in
    let answer := read_into (zeros 14) 14 bytes in
    if negb (n =? 14) then (EXITCODE n, p2)
    else if bytes_differ answer handshake_response
    then (DEVICE_STATUS_PROTOCOL, p2)
    else (DEVICE_STATUS_SUCCESS, p2)
  | _ => (rc, p1)
  end.

(** [oceanic_veo250_device_close]: the third component tells whether the
    device object was freed. *)
Definition oceanic_veo250_device_close (abstract : option device_t) (p : port)
  : device_status_t * port * bool :=
  if negb (device_is_oceanic_veo250 abstract)
  then (DEVICE_STATUS_TYPE_MISMATCH, p, false)
  else
    let '(_, p1) := oceanic_veo250_handshake p in
    let '(rc, p2) := serial_close p1 in
    if rc =? -1 then (DEVICE_STATUS_IO, p2, true)
    else (DEVICE_STATUS_SUCCESS, p2, true).

Definition oceanic_veo250_device_version (abstract : option device_t)
  (data : list Z) (size : Z) (p : port)
  : outcome (device_status_t * list Z * port) :=
  if negb (device_is_oceanic_veo250 abstract)
  then Returns (DEVICE_STATUS_TYPE_MISMATCH, data, p)
  else if size <? OCEANIC_VEO250_PACKET_SIZE
  then Returns (DEVICE_STATUS_MEMORY, data, p)
  else
    let answer := zeros (OCEANIC_VEO250_PACKET_SIZE + 2) in
    let command := [0x90; 0x00] in
    ' (rc, answer1, p1) <- oceanic_veo250_transfer p command 2 answer
                             (OCEANIC_VEO250_PACKET_SIZE + 2) ;;
    match rc with
    | DEVICE_STATUS_SUCCESS =>
      Returns (DEVICE_STATUS_SUCCESS,
               memcpy data 0 answer1 OCEANIC_VEO250_PACKET_SIZE, p1)
    | _ => Returns (rc, data, p1)
    end.

(** The command built in the loop of [oceanic_veo250_device_read]. *)
Definition read_command (number : Z) : list Z :=
  [0x20;
   Z.land number 0xFF;
   Z.land (Z.shiftr number 8) 0xFF;
   Z.land number 0xFF;
   Z.land (Z.shiftr number 8) 0xFF;
   0].

(** The loop of [oceanic_veo250_device_read]; [off] is the distance that
    the pointer [data] has advanced. *)
Fixpoint read_loop (fuel : nat) (p : port) (address : Z) (data : list Z)
  (off : Z) (size : Z) (nbytes : Z) : outcome (device_status_t * list Z * port) :=
  match fuel with
  | O => OutOfFuel
  | S fuel' =>
    if nbytes <? size then
      let number := address / OCEANIC_VEO250_PACKET_SIZE in
      let answer := zeros (OCEANIC_VEO250_PACKET_SIZE + 2) in
      let command := read_command number in
      ' (rc, answer1, p1) <- oceanic_veo250_transfer p command 6 answer
                               (OCEANIC_VEO250_PACKET_SIZE + 2) ;;
      match rc with
      | DEVICE_STATUS_SUCCESS =>
        let data1 := memcpy data off answer1 OCEANIC_VEO250_PACKET_SIZE in
        read_loop fuel' p1 (uint (address + OCEANIC_VEO250_PACKET_SIZE)) data1
          (off + OCEANIC_VEO250_PACKET_SIZE) size
          (uint (nbytes + OCEANIC_VEO250_PACKET_SIZE))
      | _ => Returns (rc, data, p1)
      end
    else Returns (DEVICE_STATUS_SUCCESS, data, p)
  end.

Definition oceanic_veo250_device_read (fuel : nat) (abstract : option device_t)
  (address : Z) (data : list Z) (size : Z) (p : port)
  : outcome (device_status_t * list Z * port) :=
  if negb (device_is_oceanic_veo250 abstract)
  then Returns (DEVICE_STATUS_TYPE_MISMATCH, data, p)
  else
    assert (address mod OCEANIC_VEO250_PACKET_SIZE =? 0) (
    assert (size mod OCEANIC_VEO250_PACKET_SIZE =? 0) (
    read_loop fuel p address data 0 size 0)).

(** [oceanic_veo250_device_dump]: [result] is the cell that the pointer of
    that name designates, [None] for a null pointer. *)
Definition oceanic_veo250_device_dump (fuel : nat) (abstract : option device_t)
  (data : list Z) (size : Z) (result : option Z) (p : port)
  : outcome (device_status_t * list Z * option Z * port) :=
  if negb (device_is_oceanic_veo250 abstract)
  then Returns (DEVICE_STATUS_TYPE_MISMATCH, data, result, p)
  else if size <? OCEANIC_VEO250_MEMORY_SIZE
  then Returns (DEVICE_STATUS_ERROR, data, result, p)
  else
    ' (rc, data1, p1) <- oceanic_veo250_device_read fuel abstract 0x00 data
                           OCEANIC_VEO250_MEMORY_SIZE p ;;
    match rc with
    | DEVICE_STATUS_SUCCESS =>
      Returns (DEVICE_STATUS_SUCCESS, data1,
               match result with
               | Some _ => Some OCEANIC_VEO250_MEMORY_SIZE
               | None => None
               end, p1)
    | _ => Returns (rc, data1, result, p1)
    end.

End Protocol.

(** ** A scripted serial line

    A line whose reads are answered from a script, one entry per call, and
    which records every primitive applied to it.  It serves to state what
    goes over the wire and to run the code on concrete exchanges. *)

Inductive event : Type :=
| EvWrite (data : list Z)
| EvDrain
| EvRead (size : Z)
| EvClose.

Inductive rx_item : Type :=
| RxBytes (bytes : list Z)   (* the bytes that arrive before the timeout *)
| RxError (rc : Z).          (* the read fails with this result *)

Record sim : Type := mkSim {
  rx : list rx_item;         (* answers to the coming reads *)
  tx_fail : bool;            (* write and drain fail with -1 *)
  close_fail : bool;         (* close fails with -1 *)
  trace : list event         (* what was done so far, oldest first *)
}.

Definition sim_log (s : sim) (e : event) : sim :=
  mkSim (rx s) (tx_fail s) (close_fail s) (trace s ++ [e]).

Definition sim_write (s : sim) (data : list Z) (size : Z) : Z * sim :=
  (if tx_fail s then -1 else size,
   sim_log s (EvWrite (firstn (Z.to_nat size) data))).

Definition sim_drain (s : sim) : Z * sim :=
  (if tx_fail s then -1 else 0, sim_log s EvDrain).

Definition sim_read (s : sim) (size : Z) : (Z * list Z) * sim :=
  let s1 := sim_log s (EvRead size) in
  match rx s with
  | [] => ((0, []), s1)
  | RxBytes bytes :: rest =>
    let got := firstn (Z.to_nat size) bytes in
    ((Z.of_nat (length got), got),
     mkSim rest (tx_fail s1) (close_fail s1) (trace s1))
  | RxError rc :: rest =>
    ((rc, []), mkSim rest (tx_fail s1) (close_fail s1) (trace s1))
  end.

Definition sim_close (s : sim) : Z * sim :=
  (if close_fail s then -1 else 0, sim_log s EvClose).

#[export] Instance sim_serial : Serial sim := {
  serial_write := sim_write;
  serial_drain := sim_drain;
  serial_read := sim_read;
  serial_close := sim_close
}.

(** A fresh line with the given script. *)
Definition sim_init (script : list rx_item) : sim := mkSim script false false [].

(** The number of commands written in a trace. *)
Fixpoint sends (tr : list event) : nat :=
  match tr with
  | [] => O
  | EvWrite _ :: tr' => S (sends tr')
  | _ :: tr' => sends tr'
  end.

(** What one attempt of the retry loop, and [n] of them, leave in the trace. *)
Definition attempt (command : list Z) : list event :=
  [EvWrite command; EvDrain; EvRead 1].

Fixpoint attempts (n : nat) (command : list Z) : list event :=
  match n with
  | O => []
  | S n' => attempt command ++ attempts n' command
  end.

(** An answer frame that carries [payload]. *)
Definition frame_of (payload : list Z) : list Z :=
  payload ++ [sum_bytes payload mod 256; NAK].

(** A small layout for running the code: packets of 2 bytes, 4 bytes of
    memory. *)
Definition tiny_header : Veo250Header :=
  {| OCEANIC_VEO250_PACKET_SIZE := 2; OCEANIC_VEO250_MEMORY_SIZE := 4 |}.

(** ** Auxiliary notions for the statements *)

(** The handle of an open VEO 250 session. *)
Definition veo250_handle : option device_t :=
  Some {| backend := oceanic_veo250_device_backend |}.

(** The bytes of [command] that a write of [csize] bytes puts on the wire. *)
Definition wire (command : list Z) (csize : Z) : list Z :=
  firstn (Z.to_nat csize) command.

Section Rounds.

Context {port : Type} {line : Serial port}.

(** [nak_rounds command csize k p p'] : starting from the line state [p],
    the command is sent and answered with the single byte NAK, [k] times in
    a row, which leaves the line in state [p']. *)
Inductive nak_rounds (command : list Z) (csize : Z) : nat -> port -> port -> Prop :=
| nak_rounds_O (p : port) : nak_rounds command csize O p p
| nak_rounds_S (k : nat) (p p1 p2 p3 : port) (st : device_status_t) :
    oceanic_veo250_send p command csize = (st, p1) ->
    serial_read p1 1 = ((1, [NAK]), p2) ->
    nak_rounds command csize k p2 p3 ->
    nak_rounds command csize (S k) p p3.

End Rounds.

(** The scripted line [s] once the events [evs] have happened and the script
    is down to [rest]. *)
Definition sim_after (s : sim) (rest : list rx_item) (evs : list event) : sim :=
  mkSim rest (tx_fail s) (close_fail s) (trace s ++ evs).

(** The scripted answers to acknowledgement reads that deliver the bytes
    [bs], one per read. *)
Definition ack_bytes (bs : list Z) : list rx_item :=
  map (fun b => RxBytes [b]) bs.

(** The reading of the retry policy under which every byte other than ACK
    counts as a retry: when the first MAXRETRIES + 1 acknowledgement bytes
    are all different from ACK, the command is sent MAXRETRIES + 1 times
    before the transfer fails with a protocol error. *)
Definition every_non_ack_is_retried (hdr : Veo250Header) : Prop :=
  forall (s : sim) (command answer : list Z) (csize : Z) (bs : list Z)
         (rest : list rx_item),
    length bs = S (Z.to_nat MAXRETRIES) ->
    Forall (fun b => b <> ACK) bs ->
    rx s = ack_bytes bs ++ rest ->
    exists s',
      oceanic_veo250_transfer s command csize answer
        (OCEANIC_VEO250_PACKET_SIZE + 2)
        = Returns (DEVICE_STATUS_PROTOCOL, answer, s') /\
      sends (trace s') = (sends (trace s) + S (Z.to_nat MAXRETRIES))%nat.

Section Packets.

Context {hdr : Veo250Header}.

(** A packet exchange that succeeds: the device answers NAK [k] times, then
    ACK, then sends the frame of [payload].  A list of pairs [(k, payload)]
    describes consecutive exchanges. *)
Definition packet_script (k : nat) (payload : list Z) : list rx_item :=
  repeat (RxBytes [NAK]) k ++ [RxBytes [ACK]; RxBytes (frame_of payload)].

Fixpoint packets_script (pkts : list (nat * list Z)) : list rx_item :=
  match pkts with
  | [] => []
  | (k, payload) :: pkts' => packet_script k payload ++ packets_script pkts'
  end.

Definition well_formed_packet (pkt : nat * list Z) : Prop :=
  Z.of_nat (fst pkt) <= MAXRETRIES /\
  length (snd pkt) = Z.to_nat OCEANIC_VEO250_PACKET_SIZE.

(** What such an exchange leaves in the trace: the command, sent [k + 1]
    times, each time followed by the acknowledgement read, and the read of
    the answer frame. *)
Definition packet_events (command : list Z) (k : nat) : list event :=
  attempts (S k) command ++ [EvRead (OCEANIC_VEO250_PACKET_SIZE + 2)].

(** The trace of the exchanges [pkts] when they are requested by the packet
    numbers [number], [number + 1], ... in this order. *)
Fixpoint read_events (number : Z) (pkts : list (nat * list Z)) : list event :=
  match pkts with
  | [] => []
  | (k, _) :: pkts' =>
    packet_events (read_command number) k ++ read_events (number + 1) pkts'
  end.

(** The same trace, following the variable [address] of the loop. *)
Fixpoint loop_events (address : Z) (pkts : list (nat * list Z)) : list event :=
  match pkts with
  | [] => []
  | (k, _) :: pkts' =>
    packet_events (read_command (address / OCEANIC_VEO250_PACKET_SIZE)) k
      ++ loop_events (uint (address + OCEANIC_VEO250_PACKET_SIZE)) pkts'
  end.

(** The variable [address] after [n] iterations. *)
Fixpoint loop_address (address : Z) (n : nat) : Z :=
  match n with
  | O => address
  | S n' => loop_address (uint (address + OCEANIC_VEO250_PACKET_SIZE)) n'
  end.

(** The payloads of the exchanges, one after the other. *)
Definition payloads (pkts : list (nat * list Z)) : list Z :=
  concat (map snd pkts).

(** The reading of the failure policy under which a failed read leaves
    nothing of the packets it had received in the caller's buffer. *)
Definition failed_read_leaves_buffer : Prop :=
  forall (fuel : nat) (s s' : sim) (address size : Z) (data data' : list Z)
         (rc : device_status_t),
    oceanic_veo250_device_read fuel veo250_handle address data size s
      = Returns (rc, data', s') ->
    rc <> DEVICE_STATUS_SUCCESS ->
    data' = data.

End Packets.

(** ** Opening a session

    The primitives of [serial.h] that only [oceanic_veo250_device_open]
    uses, with the members of their enumerations that it names. *)

Inductive serial_parity : Type := SERIAL_PARITY_NONE.
Inductive serial_flowcontrol : Type := SERIAL_FLOWCONTROL_NONE.
Inductive serial_queue : Type := SERIAL_QUEUE_BOTH.

Class SerialSetup (port : Type) : Type := {
  serial_open : port -> String.string -> Z * port;
  serial_configure :
    port -> Z -> Z -> serial_parity -> Z -> serial_flowcontrol -> Z * port;
  serial_set_timeout : port -> Z -> Z * port;
  serial_set_dtr : port -> Z -> Z * port;
  serial_set_rts : port -> Z -> Z * port;
  serial_sleep : port -> Z -> Z * port;
  serial_flush : port -> serial_queue -> Z * port
}.

Section Opening.

Context {port : Type} {line : Serial port} {setup : SerialSetup port}.

(** The three failure exits of [oceanic_veo250_device_open] that come after
    the port was opened: close the port, free the object. *)
Definition open_bail_out (out : option (option device_t)) (p : port)
  : device_status_t * option (option device_t) * bool * port :=
  let '(_, p1) := serial_close p in
  (DEVICE_STATUS_IO, out, false, p1).

(** [oceanic_veo250_device_open].  [out] is the cell that the pointer of
    that name designates, [None] for a null pointer; [heap_ok] tells
    whether [malloc] finds memory.  The third component of the result tells
    whether the device object is allocated when the call returns. *)
Definition oceanic_veo250_device_open (out : option (option device_t))
  (heap_ok : bool) (name : String.string) (p : port)
  : device_status_t * option (option device_t) * bool * port :=
  match out with
  | None => (DEVICE_STATUS_ERROR, out, false, p)
  | Some _ =>
    if negb heap_ok then (DEVICE_STATUS_MEMORY, out, false, p)
    else
      let '(rc, p1) := serial_open p name in
      if rc =? -1 then (DEVICE_STATUS_IO, out, false, p1)
      else
        let '(rc, p2) :=
          serial_configure p1 9600 8 SERIAL_PARITY_NONE 1
            SERIAL_FLOWCONTROL_NONE in
        if rc =? -1 then open_bail_out out p2
        else
          let '(rc, p3) := serial_set_timeout p2 3000 in
          if rc =? -1 then open_bail_out out p3
          else
            let '(dtr, p4) := serial_set_dtr p3 1 in
            let '(failed, p5) :=
              if dtr =? -1 then (true, p4)
              else let '(rts, p5) := serial_set_rts p4 1 in (rts =? -1, p5) in
            if failed then open_bail_out out p5
            else
              let '(_, p6) := serial_sleep p5 100 in
              let '(_, p7) := serial_flush p6 SERIAL_QUEUE_BOTH in
              let '(_, p8) := oceanic_veo250_init p7 in
              let '(_, p9) := oceanic_veo250_handshake p8 in
              (DEVICE_STATUS_SUCCESS, Some veo250_handle, true, p9)
  end.

End Opening.

(** ** A scripted host

    The scripted line together with the port it sits on: each setup
    primitive can be made to fail, the host knows whether the port is open,
    and its history records setup and transfer events in the order they
    happen. *)

Inductive host_event : Type :=
| HostOpen (name : String.string)
| HostConfigure (baudrate databits : Z) (parity : serial_parity)
    (stopbits : Z) (flowcontrol : serial_flowcontrol)
| HostTimeout (ms : Z)
| HostDTR (level : Z)
| HostRTS (level : Z)
| HostSleep (ms : Z)
| HostFlush (queue : serial_queue)
| HostIO (e : event).

Record host : Type := mkHost {
  wire_line : sim;            (* the line behind the port *)
  open_fail : bool;           (* serial_open fails with -1 *)
  configure_fail : bool;      (* serial_configure fails with -1 *)
  timeout_fail : bool;        (* serial_set_timeout fails with -1 *)
  dtr_fail : bool;            (* serial_set_dtr fails with -1 *)
  rts_fail : bool;            (* serial_set_rts fails with -1 *)
  is_open : bool;             (* the port is open *)
  history : list host_event   (* what was done so far, oldest first *)
}.

(** The host after the event [e], with the line and the port state given. *)
Definition host_step (h : host) (l : sim) (opened : bool) (e : host_event)
  : host :=
  mkHost l (open_fail h) (configure_fail h) (timeout_fail h) (dtr_fail h)
    (rts_fail h) opened (history h ++ [e]).

Definition host_rc (fails : bool) : Z := if fails then -1 else 0.

Definition host_write (h : host) (data : list Z) (size : Z) : Z * host :=
  let '(rc, l) := sim_write (wire_line h) data size in
  (rc, host_step h l (is_open h) (HostIO (EvWrite (wire data size)))).

Definition host_drain (h : host) : Z * host :=
  let '(rc, l) := sim_drain (wire_line h) in
  (rc, host_step h l (is_open h) (HostIO EvDrain)).

Definition host_read (h : host) (size : Z) : (Z * list Z) * host :=
  let '(r, l) := sim_read (wire_line h) size in
  (r, host_step h l (is_open h) (HostIO (EvRead size))).

Definition host_close (h : host) : Z * host :=
  let '(rc, l) := sim_close (wire_line h) in
  (rc, host_step h l false (HostIO EvClose)).

#[export] Instance host_serial : Serial host := {
  serial_write := host_write;
  serial_drain := host_drain;
  serial_read := host_read;
  serial_close := host_close
}.

Definition host_open (h : host) (name : String.string) : Z * host :=
  (host_rc (open_fail h),
   host_step h (wire_line h) (if open_fail h then is_open h else true)
     (HostOpen name)).

Definition host_setup (h : host) (fails : bool) (e : host_event) : Z * host :=
  (host_rc fails, host_step h (wire_line h) (is_open h) e).

#[export] Instance host_setup_serial : SerialSetup host := {
  serial_open := host_open;
  serial_configure h baudrate databits parity stopbits flowcontrol :=
    host_setup h (configure_fail h)
      (HostConfigure baudrate databits parity stopbits flowcontrol);
  serial_set_timeout h ms := host_setup h (timeout_fail h) (HostTimeout ms);
  serial_set_dtr h level := host_setup h (dtr_fail h) (HostDTR level);
  serial_set_rts h level := host_setup h (rts_fail h) (HostRTS level);
  serial_sleep h ms := host_setup h false (HostSleep ms);
  serial_flush h queue := host_setup h false (HostFlush queue)
}.

(** The history of a successful open on the port [name]. *)
Definition open_history (name : String.string) : list host_event :=
  [HostOpen name;
   HostConfigure 9600 8 SERIAL_PARITY_NONE 1 SERIAL_FLOWCONTROL_NONE;
   HostTimeout 3000; HostDTR 1; HostRTS 1; HostSleep 100;
   HostFlush SERIAL_QUEUE_BOTH;
   HostIO (EvWrite [0x55; 0x00]); HostIO EvDrain;
   HostIO (EvWrite [0x98; 0x00]); HostIO EvDrain; HostIO (EvRead 14)].

(** No setup primitive of the host is set to fail. *)
Definition setup_works (h : host) : bool :=
  negb (open_fail h || configure_fail h || timeout_fail h || dtr_fail h
        || rts_fail h).

(** The host [h] once the events [evs] have happened, with the line and the
    port state given. *)
Definition host_after (h : host) (l : sim) (opened : bool)
  (evs : list host_event) : host :=
  mkHost l (open_fail h) (configure_fail h) (timeout_fail h) (dtr_fail h)
    (rts_fail h) opened (history h ++ evs).

(** The history of the handshake and of the close of the line. *)
Definition close_history : list host_event :=
  [HostIO (EvWrite [0x98; 0x00]); HostIO EvDrain; HostIO (EvRead 14);
   HostIO EvClose].

(** A port name for running the code: the one-letter name [a]. *)
Definition sample_port : String.string :=
  String.String (Ascii.ascii_of_nat 97) String.EmptyString.

(** ** Facts that hold on every serial line *)

Section AnyLine.

Context {hdr : Veo250Header} {port : Type} {line : Serial port}.

Lemma veo250_handle_ok : device_is_oceanic_veo250 veo250_handle = true.
Proof. reflexivity. Qed.

Lemma foreign_handle_rejected (abstract : option device_t) :
  abstract = None \/
  (exists d, abstract = Some d /\ backend d <> oceanic_veo250_device_backend) ->
  device_is_oceanic_veo250 abstract = false.
Proof.
  intros [-> | [d [-> Hd]]]; [reflexivity |].
  destruct d as [b]; simpl in *.
  destruct b; [congruence | reflexivity].
Qed.

Lemma send_always_succeeds (p : port) (command : list Z) (csize : Z) :
  fst (oceanic_veo250_send p command csize) = DEVICE_STATUS_SUCCESS.
Proof.
  unfold oceanic_veo250_send.
  destruct (serial_write p command csize) as [n p1].
  destruct (serial_drain p1) as [m p2]. reflexivity.
Qed.

Lemma EXITCODE_timeout (n : Z) : n <> -1 -> EXITCODE n = DEVICE_STATUS_TIMEOUT.
Proof.
  intros Hn. unfold EXITCODE.
  destruct (Z.eqb_spec n (-1)); [contradiction | reflexivity].
Qed.

(** *** The retry loop *)

Lemma loop_not_nak (fuel : nat) (p : port) (command : list Z) (csize : Z)
  (nretries response : Z) :
  response <> NAK ->
  transfer_loop (S fuel) p command csize nretries response
    = Returns (inr response, p).
Proof.
  intros Hr. simpl.
  destruct (Z.eqb_spec response NAK); [contradiction | reflexivity].
Qed.

Lemma loop_round (fuel : nat) (p p1 p2 : port) (command : list Z) (csize : Z)
  (nretries b : Z) (st : device_status_t) :
  oceanic_veo250_send p command csize = (st, p1) ->
  serial_read p1 1 = ((1, [b]), p2) ->
  transfer_loop (S fuel) p command csize nretries NAK
    = if nretries >=? MAXRETRIES then Returns (inr b, p2)
      else transfer_loop fuel p2 command csize (nretries + 1) b.
Proof.
  intros Hs Hr.
  pose proof (send_always_succeeds p command csize) as Hst.
  rewrite Hs in Hst. simpl in Hst. subst st.
  simpl. rewrite Hs, Hr. reflexivity.
Qed.

Lemma loop_bad_read (fuel : nat) (p p1 p2 : port) (command : list Z) (csize : Z)
  (nretries n : Z) (bytes : list Z) (st : device_status_t) :
  oceanic_veo250_send p command csize = (st, p1) ->
  serial_read p1 1 = ((n, bytes), p2) ->
  n <> 1 ->
  transfer_loop (S fuel) p command csize nretries NAK
    = Returns (inl (EXITCODE n), p2).
Proof.
  intros Hs Hr Hn.
  pose proof (send_always_succeeds p command csize) as Hst.
  rewrite Hs in Hst. simpl in Hst. subst st.
  simpl. rewrite Hs, Hr.
  destruct (Z.eqb_spec n 1); [contradiction | reflexivity].
Qed.

Lemma loop_after_naks (command : list Z) (csize : Z) (k : nat) (p p' : port) :
  nak_rounds command csize k p p' ->
  forall (fuel : nat) (nretries : Z),
    nretries + Z.of_nat k <= MAXRETRIES ->
    transfer_loop (k + fuel) p command csize nretries NAK
      = transfer_loop fuel p' command csize (nretries + Z.of_nat k) NAK.
Proof.
  induction 1 as [p | k p p1 p2 p3 st Hs Hr Hk IH]; intros fuel nretries Hb.
  - simpl. rewrite Z.add_0_r. reflexivity.
  - change (S k + fuel)%nat with (S (k + fuel)).
    rewrite (loop_round _ _ _ _ _ _ _ _ _ Hs Hr).
    destruct (Z.geb_spec nretries MAXRETRIES) as [Hge | Hlt]; [lia |].
    rewrite IH by lia. f_equal. lia.
Qed.

(** The budget of the loop in [oceanic_veo250_transfer], split after [k]
    rounds. *)
Lemma budget_split (k : nat) :
  Z.of_nat k <= MAXRETRIES ->
  S (Z.to_nat MAXRETRIES) = (k + S (Z.to_nat MAXRETRIES - k))%nat.
Proof. unfold MAXRETRIES. lia. Qed.

(** After [k] rounds answered NAK, a round answered by one byte [b] ends the
    loop with [b] when [b] is not NAK or when this was the last round
    allowed. *)
Lemma loop_exit (command : list Z) (csize : Z) (k : nat) (p p' p1 p2 : port)
  (st : device_status_t) (b : Z) :
  nak_rounds command csize k p p' ->
  Z.of_nat k <= MAXRETRIES ->
  oceanic_veo250_send p' command csize = (st, p1) ->
  serial_read p1 1 = ((1, [b]), p2) ->
  b <> NAK \/ Z.of_nat k = MAXRETRIES ->
  transfer_loop (S (Z.to_nat MAXRETRIES)) p command csize 0 NAK
    = Returns (inr b, p2).
Proof.
  intros Hk Hle Hs Hr Hb.
  rewrite (budget_split k Hle), (loop_after_naks _ _ _ _ _ Hk) by lia.
  rewrite (loop_round _ _ _ _ _ _ _ _ _ Hs Hr), Z.add_0_l.
  destruct (Z.geb_spec (Z.of_nat k) MAXRETRIES) as [Hge | Hlt]; [reflexivity |].
  destruct Hb as [Hb | Hb]; [| lia].
  assert (Hf : exists f, (Z.to_nat MAXRETRIES - k)%nat = S f).
  { exists (Z.to_nat MAXRETRIES - k - 1)%nat. unfold MAXRETRIES in *. lia. }
  destruct Hf as [f ->]. apply loop_not_nak. exact Hb.
Qed.

(** After [k] rounds answered NAK, an acknowledgement read that does not
    return 1 ends the call at once. *)
Lemma loop_abort (command : list Z) (csize : Z) (k : nat) (p p' p1 p2 : port)
  (st : device_status_t) (n : Z) (bytes : list Z) :
  nak_rounds command csize k p p' ->
  Z.of_nat k <= MAXRETRIES ->
  oceanic_veo250_send p' command csize = (st, p1) ->
  serial_read p1 1 = ((n, bytes), p2) ->
  n <> 1 ->
  transfer_loop (S (Z.to_nat MAXRETRIES)) p command csize 0 NAK
    = Returns (inl (EXITCODE n), p2).
Proof.
  intros Hk Hle Hs Hr Hn.
  rewrite (budget_split k Hle), (loop_after_naks _ _ _ _ _ Hk) by lia.
  apply (loop_bad_read _ _ _ _ _ _ _ _ _ _ Hs Hr Hn).
Qed.

(** The loop of the transfer never uses up its budget. *)
Lemma transfer_loop_total (p : port) (command : list Z) (csize : Z) :
  transfer_loop (S (Z.to_nat MAXRETRIES)) p command csize 0 NAK <> OutOfFuel.
Proof.
  change (S (Z.to_nat MAXRETRIES)) with 3%nat.
  assert (step : forall fuel q nr,
    (forall q' r, transfer_loop fuel q' command csize (nr + 1) r <> OutOfFuel
                  \/ nr >= MAXRETRIES) ->
    transfer_loop (S fuel) q command csize nr NAK <> OutOfFuel).
  { intros fuel q nr IH. simpl.
    destruct (oceanic_veo250_send q command csize) as [st q1] eqn:Hs.
    pose proof (send_always_succeeds q command csize) as Hst.
    rewrite Hs in Hst. simpl in Hst. subst st.
    destruct (serial_read q1 1) as [[n bytes] q2].
    destruct (negb (n =? 1)); [discriminate |].
    destruct (Z.geb_spec nr MAXRETRIES) as [Hge | Hlt]; [discriminate |].
    destruct (IH q2 (byte_at (read_into [NAK] 1 bytes) 0)) as [H | H];
      [exact H | lia]. }
  apply step. intros q1 r1. left.
  destruct (Z.eq_dec r1 NAK) as [-> | Hr1]; [| rewrite loop_not_nak by exact Hr1; discriminate].
  apply step. intros q2 r2. left.
  destruct (Z.eq_dec r2 NAK) as [-> | Hr2]; [| rewrite loop_not_nak by exact Hr2; discriminate].
  apply step. intros q3 r3. right. unfold MAXRETRIES. lia.
Qed.

(** C10: version, read, dump and close, called with a handle that is NULL or
    that belongs to another backend, return DEVICE_STATUS_TYPE_MISMATCH; the
    serial line is in the state it was in (nothing was written or read) and
    the caller's buffer and result cell are as they were. *)
Theorem foreign_handle_type_mismatch
  (abstract : option device_t) (p : port) (data : list Z)
  (address size : Z) (result : option Z) (fuel : nat) :
  abstract = None \/
  (exists d, abstract = Some d /\ backend d <> oceanic_veo250_device_backend) ->
  oceanic_veo250_device_version abstract data size p
    = Returns (DEVICE_STATUS_TYPE_MISMATCH, data, p) /\
  oceanic_veo250_device_read fuel abstract address data size p
    = Returns (DEVICE_STATUS_TYPE_MISMATCH, data, p) /\
  oceanic_veo250_device_dump fuel abstract data size result p
    = Returns (DEVICE_STATUS_TYPE_MISMATCH, data, result, p) /\
  oceanic_veo250_device_close abstract p
    = (DEVICE_STATUS_TYPE_MISMATCH, p, false).
Proof.
  intros H. apply foreign_handle_rejected in H.
  unfold oceanic_veo250_device_version, oceanic_veo250_device_read,
    oceanic_veo250_device_dump, oceanic_veo250_device_close.
  rewrite H. simpl. repeat split.
Qed.

(** C8: on the handle of a session, close runs the handshake, then closes
    the serial line in the state the handshake left it, whatever status the
    handshake returned; the status of close is DEVICE_STATUS_IO when
    serial_close returns -1 and DEVICE_STATUS_SUCCESS otherwise, and the
    device object is freed in both cases. *)
Theorem close_releases_whatever_handshake_says
  (abstract : option device_t) (p p1 p2 : port) (hs : device_status_t) (rc : Z) :
  device_is_oceanic_veo250 abstract = true ->
  oceanic_veo250_handshake p = (hs, p1) ->
  serial_close p1 = (rc, p2) ->
  oceanic_veo250_device_close abstract p
    = (if rc =? -1 then DEVICE_STATUS_IO else DEVICE_STATUS_SUCCESS, p2, true).
Proof.
  intros Hty Hhs Hcl. unfold oceanic_veo250_device_close.
  rewrite Hty, Hhs, Hcl. simpl.
  destruct (rc =? -1); reflexivity.
Qed.

(** C6: on the handle of a session, dump with a capacity below
    OCEANIC_VEO250_MEMORY_SIZE returns DEVICE_STATUS_ERROR with the serial
    line, the buffer and the result cell untouched; with a capacity of at
    least OCEANIC_VEO250_MEMORY_SIZE it does what read does from address 0
    for OCEANIC_VEO250_MEMORY_SIZE bytes, returns read's status, line and
    buffer, and on success stores OCEANIC_VEO250_MEMORY_SIZE in the result
    cell. *)
Theorem dump_capacity_check
  (abstract : option device_t) (p : port) (data : list Z) (size : Z)
  (result : option Z) (fuel : nat) :
  device_is_oceanic_veo250 abstract = true ->
  (size < OCEANIC_VEO250_MEMORY_SIZE ->
     oceanic_veo250_device_dump fuel abstract data size result p
       = Returns (DEVICE_STATUS_ERROR, data, result, p)) /\
  (OCEANIC_VEO250_MEMORY_SIZE <= size ->
     match oceanic_veo250_device_read fuel abstract 0 data
             OCEANIC_VEO250_MEMORY_SIZE p with
     | Returns (DEVICE_STATUS_SUCCESS, data1, p1) =>
         oceanic_veo250_device_dump fuel abstract data size result p
           = Returns (DEVICE_STATUS_SUCCESS, data1,
                      option_map (fun _ => OCEANIC_VEO250_MEMORY_SIZE) result, p1)
     | Returns (rc, data1, p1) =>
         oceanic_veo250_device_dump fuel abstract data size result p
           = Returns (rc, data1, result, p1)
     | AssertionFailed =>
         oceanic_veo250_device_dump fuel abstract data size result p
           = AssertionFailed
     | OutOfFuel =>
         oceanic_veo250_device_dump fuel abstract data size result p = OutOfFuel
     end).
Proof.
  intros Hty. unfold oceanic_veo250_device_dump. rewrite Hty. simpl.
  split; intros Hsz.
  - apply Z.ltb_lt in Hsz. rewrite Hsz. reflexivity.
  - apply Z.ltb_ge in Hsz. rewrite Hsz.
    destruct (oceanic_veo250_device_read fuel abstract 0 data
                OCEANIC_VEO250_MEMORY_SIZE p) as [[[rc data1] p1] | |];
      simpl; [| reflexivity | reflexivity].
    destruct rc, result; reflexivity.
Qed.

(** *** Reads that return another count than the one asked for *)

Lemma read_into_full (buf bytes : list Z) (size : Z) :
  length bytes = Z.to_nat size ->
  length buf = Z.to_nat size ->
  read_into buf size bytes = bytes.
Proof.
  intros Hb Hbuf. unfold read_into.
  rewrite firstn_all2 by lia.
  rewrite skipn_all2 by lia.
  apply app_nil_r.
Qed.

Lemma transfer_of_loop_status (p p1 : port) (command : list Z) (csize : Z)
  (answer : list Z) (rc : device_status_t) :
  transfer_loop (S (Z.to_nat MAXRETRIES)) p command csize 0 NAK
    = Returns (inl rc, p1) ->
  oceanic_veo250_transfer p command csize answer (OCEANIC_VEO250_PACKET_SIZE + 2)
    = Returns (rc, answer, p1).
Proof.
  intros Hl. unfold oceanic_veo250_transfer, assert.
  rewrite Z.eqb_refl, Hl. reflexivity.
Qed.

Lemma transfer_of_loop_response (p p1 : port) (command : list Z) (csize : Z)
  (answer : list Z) (b : Z) :
  transfer_loop (S (Z.to_nat MAXRETRIES)) p command csize 0 NAK
    = Returns (inr b, p1) ->
  b <> ACK ->
  oceanic_veo250_transfer p command csize answer (OCEANIC_VEO250_PACKET_SIZE + 2)
    = Returns (DEVICE_STATUS_PROTOCOL, answer, p1).
Proof.
  intros Hl Hb. unfold oceanic_veo250_transfer, assert.
  rewrite Z.eqb_refl, Hl. simpl.
  destruct (Z.eqb_spec b ACK); [contradiction | reflexivity].
Qed.

(** C5: a read that returns a count [n] other than the length asked for
    makes the caller return EXITCODE(n), which is DEVICE_STATUS_IO for -1 and
    DEVICE_STATUS_TIMEOUT for every other value.  This holds for the
    acknowledgement read of any round of the transfer (the call returns with
    the line in the state that read left it: no resend, no further read),
    for the read of the answer frame, and for the read of the handshake
    banner. *)
Theorem failed_read_classification :
  (EXITCODE (-1) = DEVICE_STATUS_IO /\
   forall n : Z, n <> -1 -> EXITCODE n = DEVICE_STATUS_TIMEOUT) /\
  (forall (command : list Z) (csize : Z) (answer : list Z) (k : nat)
          (p p' p1 p2 : port) (st : device_status_t) (n : Z) (bytes : list Z),
     nak_rounds command csize k p p' ->
     Z.of_nat k <= MAXRETRIES ->
     oceanic_veo250_send p' command csize = (st, p1) ->
     serial_read p1 1 = ((n, bytes), p2) ->
     n <> 1 ->
     oceanic_veo250_transfer p command csize answer
       (OCEANIC_VEO250_PACKET_SIZE + 2)
       = Returns (EXITCODE n, answer, p2)) /\
  (forall (command : list Z) (csize : Z) (answer : list Z)
          (p p1 p2 : port) (n : Z) (bytes : list Z),
     transfer_loop (S (Z.to_nat MAXRETRIES)) p command csize 0 NAK
       = Returns (inr ACK, p1) ->
     serial_read p1 (OCEANIC_VEO250_PACKET_SIZE + 2) = ((n, bytes), p2) ->
     n <> OCEANIC_VEO250_PACKET_SIZE + 2 ->
     oceanic_veo250_transfer p command csize answer
       (OCEANIC_VEO250_PACKET_SIZE + 2)
       = Returns (EXITCODE n,
                  read_into answer (OCEANIC_VEO250_PACKET_SIZE + 2) bytes, p2)) /\
  (forall (p p1 p2 : port) (st : device_status_t) (n : Z) (bytes : list Z),
     oceanic_veo250_send p [0x98; 0x00] 2 = (st, p1) ->
     serial_read p1 14 = ((n, bytes), p2) ->
     n <> 14 ->
     oceanic_veo250_handshake p = (EXITCODE n, p2)).
Proof.
  split; [split; [reflexivity | exact EXITCODE_timeout] |].
  split; [| split].
  - intros command csize answer k p p' p1 p2 st n bytes Hk Hle Hs Hr Hn.
    apply transfer_of_loop_status.
    exact (loop_abort _ _ _ _ _ _ _ _ _ _ Hk Hle Hs Hr Hn).
  - intros command csize answer p p1 p2 n bytes Hl Hr Hn.
    unfold oceanic_veo250_transfer, assert.
    rewrite Z.eqb_refl, Hl. simpl. rewrite Hr.
    destruct (Z.eqb_spec n (OCEANIC_VEO250_PACKET_SIZE + 2));
      [contradiction | reflexivity].
  - intros p p1 p2 st n bytes Hs Hr Hn.
    pose proof (send_always_succeeds p [0x98; 0x00] 2) as Hst.
    rewrite Hs in Hst. simpl in Hst. subst st.
    unfold oceanic_veo250_handshake. rewrite Hs, Hr.
    destruct (Z.eqb_spec n 14); [contradiction | reflexivity].
Qed.

(** *** Validation of the answer frame *)

Lemma transfer_after_ack
  (command : list Z) (csize : Z) (answer frame : list Z) (p p1 p2 : port) :
  transfer_loop (S (Z.to_nat MAXRETRIES)) p command csize 0 NAK
    = Returns (inr ACK, p1) ->
  serial_read p1 (OCEANIC_VEO250_PACKET_SIZE + 2)
    = ((OCEANIC_VEO250_PACKET_SIZE + 2, frame), p2) ->
  length frame = Z.to_nat (OCEANIC_VEO250_PACKET_SIZE + 2) ->
  length answer = Z.to_nat (OCEANIC_VEO250_PACKET_SIZE + 2) ->
  oceanic_veo250_transfer p command csize answer
    (OCEANIC_VEO250_PACKET_SIZE + 2)
  = if negb (byte_at frame OCEANIC_VEO250_PACKET_SIZE
             =? checksum_add_uint8 frame OCEANIC_VEO250_PACKET_SIZE 0)
    then Returns (DEVICE_STATUS_PROTOCOL, frame, p2)
    else if negb (byte_at frame (OCEANIC_VEO250_PACKET_SIZE + 1) =? NAK)
    then Returns (DEVICE_STATUS_PROTOCOL, frame, p2)
    else Returns (DEVICE_STATUS_SUCCESS, frame, p2).
Proof.
  intros Hl Hr Hlen Hans.
  unfold oceanic_veo250_transfer, assert.
  rewrite Z.eqb_refl, Hl. simpl. rewrite Hr.
  rewrite (read_into_full _ _ _ Hlen Hans), Z.eqb_refl. reflexivity.
Qed.

(** C3: when the command was acknowledged and the answer read delivers a
    whole frame of OCEANIC_VEO250_PACKET_SIZE + 2 bytes, the transfer returns
    DEVICE_STATUS_PROTOCOL if the byte at index OCEANIC_VEO250_PACKET_SIZE
    differs from the additive checksum (seed 0) of the bytes before it, and
    also if the byte after it differs from NAK (0xA5); when both bytes are
    right the transfer returns DEVICE_STATUS_SUCCESS and the answer buffer
    holds the frame, whose first OCEANIC_VEO250_PACKET_SIZE bytes are the
    payload. *)
Theorem answer_frame_validation
  (command : list Z) (csize : Z) (answer frame : list Z) (p p1 p2 : port) :
  transfer_loop (S (Z.to_nat MAXRETRIES)) p command csize 0 NAK
    = Returns (inr ACK, p1) ->
  serial_read p1 (OCEANIC_VEO250_PACKET_SIZE + 2)
    = ((OCEANIC_VEO250_PACKET_SIZE + 2, frame), p2) ->
  length frame = Z.to_nat (OCEANIC_VEO250_PACKET_SIZE + 2) ->
  length answer = Z.to_nat (OCEANIC_VEO250_PACKET_SIZE + 2) ->
  let result :=
    oceanic_veo250_transfer p command csize answer
      (OCEANIC_VEO250_PACKET_SIZE + 2) in
  let crc := byte_at frame OCEANIC_VEO250_PACKET_SIZE in
  let ccrc := checksum_add_uint8 frame OCEANIC_VEO250_PACKET_SIZE 0 in
  let last := byte_at frame (OCEANIC_VEO250_PACKET_SIZE + 1) in
  (crc <> ccrc \/ last <> NAK ->
     result = Returns (DEVICE_STATUS_PROTOCOL, frame, p2)) /\
  (crc = ccrc /\ last = NAK ->
     result = Returns (DEVICE_STATUS_SUCCESS, frame, p2)).
Proof.
  intros Hl Hr Hlen Hans result crc ccrc last.
  unfold result. rewrite (transfer_after_ack _ _ _ _ _ _ _ Hl Hr Hlen Hans).
  fold crc ccrc last. split.
  - intros [Hc | Ht].
    + destruct (Z.eqb_spec crc ccrc); [contradiction | reflexivity].
    + destruct (Z.eqb_spec last NAK); [contradiction |].
      destruct (crc =? ccrc); reflexivity.
  - intros [Hc Ht].
    destruct (Z.eqb_spec crc ccrc); [| contradiction].
    destruct (Z.eqb_spec last NAK); [reflexivity | contradiction].
Qed.

End AnyLine.

(** ** Facts about what goes over the wire, on the scripted line *)

Section Scripted.

Context {hdr : Veo250Header}.

Lemma sim_after_nil (s : sim) : sim_after s (rx s) [] = s.
Proof. destruct s. unfold sim_after. simpl. rewrite app_nil_r. reflexivity. Qed.

Lemma sim_after_nil_script (s : sim) (rest : list rx_item) :
  rx s = rest -> sim_after s rest [] = s.
Proof. intros <-. apply sim_after_nil. Qed.

Lemma sim_after_after (s : sim) (r1 r2 : list rx_item) (e1 e2 : list event) :
  sim_after (sim_after s r1 e1) r2 e2 = sim_after s r2 (e1 ++ e2).
Proof. unfold sim_after. simpl. rewrite app_assoc. reflexivity. Qed.

Lemma sim_send (s : sim) (command : list Z) (csize : Z) :
  oceanic_veo250_send s command csize
    = (DEVICE_STATUS_SUCCESS,
       sim_after s (rx s) [EvWrite (wire command csize); EvDrain]).
Proof.
  unfold oceanic_veo250_send, sim_after. simpl.
  unfold sim_log. simpl. rewrite <- app_assoc. reflexivity.
Qed.

Lemma sim_read_bytes (s : sim) (size : Z) (bytes : list Z) (rest : list rx_item) :
  rx s = RxBytes bytes :: rest ->
  serial_read s size
    = ((Z.of_nat (length (firstn (Z.to_nat size) bytes)),
        firstn (Z.to_nat size) bytes),
       sim_after s rest [EvRead size]).
Proof. intros H. simpl. unfold sim_read. rewrite H. reflexivity. Qed.

Lemma sim_read_one (s : sim) (b : Z) (rest : list rx_item) :
  rx s = RxBytes [b] :: rest ->
  serial_read s 1 = ((1, [b]), sim_after s rest [EvRead 1]).
Proof. intros H. rewrite (sim_read_bytes s 1 [b] rest H). reflexivity. Qed.

(** Whatever the script holds, a read logs itself and takes at most the
    first entry of the script. *)
Lemma sim_read_any (s : sim) (size : Z) :
  exists n bytes rest,
    serial_read s size = ((n, bytes), sim_after s rest [EvRead size]).
Proof.
  simpl. unfold sim_read.
  destruct (rx s) as [| [bytes | rc] rest]; eexists _, _, _; reflexivity.
Qed.

(** A round on the scripted line: send, then the read of one byte. *)
Lemma sim_round (s : sim) (command : list Z) (csize : Z) (b : Z)
  (rest : list rx_item) :
  rx s = RxBytes [b] :: rest ->
  exists s1,
    oceanic_veo250_send s command csize = (DEVICE_STATUS_SUCCESS, s1) /\
    serial_read s1 1
      = ((1, [b]), sim_after s rest (attempt (wire command csize))).
Proof.
  intros H. eexists. split; [apply sim_send |].
  rewrite (sim_read_one _ b rest) by exact H.
  rewrite sim_after_after. reflexivity.
Qed.

Lemma sim_nak_rounds (command : list Z) (csize : Z) (k : nat) :
  forall (s : sim) (tail : list rx_item),
    rx s = repeat (RxBytes [NAK]) k ++ tail ->
    nak_rounds command csize k s
      (sim_after s tail (attempts k (wire command csize))).
Proof.
  induction k as [| k IH]; intros s tail H; simpl in H.
  - subst tail. simpl. rewrite sim_after_nil. constructor.
  - destruct (sim_round s command csize NAK _ H) as [s1 [Hs Hr]].
    econstructor; [exact Hs | exact Hr |].
    specialize (IH (sim_after s (repeat (RxBytes [NAK]) k ++ tail)
                      (attempt (wire command csize))) tail eq_refl).
    rewrite sim_after_after in IH. exact IH.
Qed.

Lemma sends_app (t1 t2 : list event) :
  sends (t1 ++ t2) = (sends t1 + sends t2)%nat.
Proof.
  induction t1 as [| e t1 IH]; [reflexivity |].
  destruct e; simpl; rewrite IH; reflexivity.
Qed.

Lemma sends_attempts (n : nat) (command : list Z) :
  sends (attempts n command) = n.
Proof. induction n as [| n IH]; simpl; [| rewrite IH]; reflexivity. Qed.

Lemma attempts_snoc (n : nat) (command : list Z) :
  attempts n command ++ attempt command = attempts (S n) command.
Proof.
  induction n as [| n IH]; [reflexivity |].
  change (attempts (S n) command) with (attempt command ++ attempts n command).
  rewrite <- app_assoc, IH. reflexivity.
Qed.

(** On the scripted line: [k] NAKs, then one byte [b] that ends the loop. *)
Lemma sim_loop_exit (s : sim) (command : list Z) (csize : Z) (k : nat) (b : Z)
  (rest : list rx_item) :
  rx s = repeat (RxBytes [NAK]) k ++ RxBytes [b] :: rest ->
  Z.of_nat k <= MAXRETRIES ->
  b <> NAK \/ Z.of_nat k = MAXRETRIES ->
  transfer_loop (S (Z.to_nat MAXRETRIES)) s command csize 0 NAK
    = Returns (inr b, sim_after s rest (attempts (S k) (wire command csize))).
Proof.
  intros Hrx Hle Hb.
  pose proof (sim_nak_rounds command csize k s _ Hrx) as Hk.
  destruct (sim_round (sim_after s (RxBytes [b] :: rest)
                         (attempts k (wire command csize)))
              command csize b rest eq_refl) as [s1 [Hs Hr]].
  rewrite (loop_exit _ _ _ _ _ _ _ _ _ Hk Hle Hs Hr Hb).
  rewrite sim_after_after, attempts_snoc. reflexivity.
Qed.

(** *** Which bytes are retried *)

(** C2, as the code has it: only NAK counts as a retry.  After [k] NAKs
    ([k <= MAXRETRIES]) a byte [b] other than ACK that is not NAK, or that
    is the answer to the last send allowed, ends the loop: the transfer
    returns DEVICE_STATUS_PROTOCOL after [k + 1] sends, with no further send
    or read. *)
Theorem retry_only_on_nak
  (s : sim) (command answer : list Z) (csize : Z) (k : nat) (b : Z)
  (rest : list rx_item) :
  rx s = repeat (RxBytes [NAK]) k ++ RxBytes [b] :: rest ->
  Z.of_nat k <= MAXRETRIES ->
  b <> ACK ->
  b <> NAK \/ Z.of_nat k = MAXRETRIES ->
  oceanic_veo250_transfer s command csize answer
    (OCEANIC_VEO250_PACKET_SIZE + 2)
    = Returns (DEVICE_STATUS_PROTOCOL, answer,
               sim_after s rest (attempts (S k) (wire command csize))).
Proof.
  intros Hrx Hle Hack Hb.
  apply (transfer_of_loop_response _ _ _ _ _ b); [| exact Hack].
  apply sim_loop_exit; assumption.
Qed.

(** *** Packets *)

Lemma frame_of_length (payload : list Z) :
  length payload = Z.to_nat OCEANIC_VEO250_PACKET_SIZE ->
  0 <= OCEANIC_VEO250_PACKET_SIZE ->
  length (frame_of payload) = Z.to_nat (OCEANIC_VEO250_PACKET_SIZE + 2).
Proof.
  intros Hlen Hps. unfold frame_of. rewrite length_app. simpl. lia.
Qed.

Lemma frame_of_payload (payload : list Z) :
  length payload = Z.to_nat OCEANIC_VEO250_PACKET_SIZE ->
  firstn (Z.to_nat OCEANIC_VEO250_PACKET_SIZE) (frame_of payload) = payload.
Proof.
  intros Hlen. unfold frame_of. rewrite <- Hlen.
  rewrite firstn_app, Nat.sub_diag, firstn_all. simpl. apply app_nil_r.
Qed.

Lemma frame_of_crc (payload : list Z) :
  length payload = Z.to_nat OCEANIC_VEO250_PACKET_SIZE ->
  byte_at (frame_of payload) OCEANIC_VEO250_PACKET_SIZE
    = checksum_add_uint8 (frame_of payload) OCEANIC_VEO250_PACKET_SIZE 0.
Proof.
  intros Hlen. unfold checksum_add_uint8.
  rewrite (frame_of_payload _ Hlen).
  unfold byte_at, frame_of. rewrite <- Hlen.
  rewrite app_nth2, Nat.sub_diag by lia. reflexivity.
Qed.

Lemma frame_of_last (payload : list Z) :
  length payload = Z.to_nat OCEANIC_VEO250_PACKET_SIZE ->
  0 <= OCEANIC_VEO250_PACKET_SIZE ->
  byte_at (frame_of payload) (OCEANIC_VEO250_PACKET_SIZE + 1) = NAK.
Proof.
  intros Hlen Hps. unfold byte_at, frame_of.
  replace (Z.to_nat (OCEANIC_VEO250_PACKET_SIZE + 1))
    with (S (length payload)) by lia.
  rewrite app_nth2 by lia.
  replace (S (length payload) - length payload)%nat with 1%nat by lia.
  reflexivity.
Qed.

Lemma zeros_length (n : Z) : length (zeros n) = Z.to_nat n.
Proof. apply repeat_length. Qed.

(** One packet exchange on the scripted line. *)
Lemma sim_transfer_packet (s : sim) (command : list Z) (csize : Z) (k : nat)
  (payload : list Z) (rest : list rx_item) :
  0 <= OCEANIC_VEO250_PACKET_SIZE ->
  rx s = packet_script k payload ++ rest ->
  well_formed_packet (k, payload) ->
  oceanic_veo250_transfer s command csize
    (zeros (OCEANIC_VEO250_PACKET_SIZE + 2)) (OCEANIC_VEO250_PACKET_SIZE + 2)
    = Returns (DEVICE_STATUS_SUCCESS, frame_of payload,
               sim_after s rest (packet_events (wire command csize) k)).
Proof.
  intros Hps Hrx [Hk Hlen]. simpl in Hk, Hlen.
  unfold packet_script in Hrx. rewrite <- app_assoc in Hrx. simpl in Hrx.
  assert (Hloop :
    transfer_loop (S (Z.to_nat MAXRETRIES)) s command csize 0 NAK
      = Returns (inr ACK,
                 sim_after s (RxBytes (frame_of payload) :: rest)
                   (attempts (S k) (wire command csize)))).
  { apply sim_loop_exit; [exact Hrx | exact Hk | left; discriminate]. }
  pose proof (frame_of_length payload Hlen Hps) as Hflen.
  assert (Hread :
    serial_read (sim_after s (RxBytes (frame_of payload) :: rest)
                   (attempts (S k) (wire command csize)))
      (OCEANIC_VEO250_PACKET_SIZE + 2)
    = ((OCEANIC_VEO250_PACKET_SIZE + 2, frame_of payload),
       sim_after s rest (packet_events (wire command csize) k))).
  { rewrite (sim_read_bytes _ _ (frame_of payload) rest) by reflexivity.
    rewrite sim_after_after, firstn_all2 by lia.
    rewrite Hflen. unfold packet_events. f_equal. f_equal. lia. }
  rewrite (transfer_after_ack _ _ _ _ _ _ _ Hloop Hread Hflen
             (zeros_length _)).
  rewrite <- (frame_of_crc payload Hlen), Z.eqb_refl.
  rewrite (frame_of_last payload Hlen Hps), Z.eqb_refl. reflexivity.
Qed.

Lemma attempts_length (n : nat) (command : list Z) :
  length (attempts n command) = (3 * n)%nat.
Proof.
  induction n as [| n IH]; [reflexivity |].
  cbn [attempts]. rewrite length_app, IH. simpl. lia.
Qed.

(** Once the loop is left with ACK, the transfer reads the answer frame
    and returns. *)
Lemma sim_transfer_reads_answer (s s1 : sim) (command answer : list Z)
  (csize : Z) :
  transfer_loop (S (Z.to_nat MAXRETRIES)) s command csize 0 NAK
    = Returns (inr ACK, s1) ->
  exists (rc : device_status_t) (answer1 : list Z) (rest : list rx_item),
    oceanic_veo250_transfer s command csize answer
      (OCEANIC_VEO250_PACKET_SIZE + 2)
    = Returns (rc, answer1,
               sim_after s1 rest [EvRead (OCEANIC_VEO250_PACKET_SIZE + 2)]).
Proof.
  intros Hl. unfold oceanic_veo250_transfer, assert.
  rewrite Z.eqb_refl, Hl. cbn [bind]. rewrite Z.eqb_refl. cbn [negb].
  destruct (sim_read_any s1 (OCEANIC_VEO250_PACKET_SIZE + 2))
    as [n [bytes [rest ->]]].
  destruct (negb (n =? OCEANIC_VEO250_PACKET_SIZE + 2));
    [eexists _, _, rest; reflexivity |].
  destruct (negb (_ =? _)); [eexists _, _, rest; reflexivity |].
  destruct (negb (_ =? _)); eexists _, _, rest; reflexivity.
Qed.

(** A well-formed exchange into any answer buffer of the right length. *)
Lemma sim_transfer_packet_into (s : sim) (command answer : list Z)
  (csize : Z) (k : nat) (payload : list Z) (rest : list rx_item) :
  0 <= OCEANIC_VEO250_PACKET_SIZE ->
  rx s = repeat (RxBytes [NAK]) k
           ++ RxBytes [ACK] :: RxBytes (frame_of payload) :: rest ->
  Z.of_nat k <= MAXRETRIES ->
  length payload = Z.to_nat OCEANIC_VEO250_PACKET_SIZE ->
  length answer = Z.to_nat (OCEANIC_VEO250_PACKET_SIZE + 2) ->
  oceanic_veo250_transfer s command csize answer
    (OCEANIC_VEO250_PACKET_SIZE + 2)
    = Returns (DEVICE_STATUS_SUCCESS, frame_of payload,
               sim_after s rest (packet_events (wire command csize) k)).
Proof.
  intros Hps Hrx Hk Hlen Hans.
  assert (Hloop :
    transfer_loop (S (Z.to_nat MAXRETRIES)) s command csize 0 NAK
      = Returns (inr ACK,
                 sim_after s (RxBytes (frame_of payload) :: rest)
                   (attempts (S k) (wire command csize)))).
  { apply sim_loop_exit; [exact Hrx | exact Hk | left; discriminate]. }
  pose proof (frame_of_length payload Hlen Hps) as Hflen.
  assert (Hread :
    serial_read (sim_after s (RxBytes (frame_of payload) :: rest)
                   (attempts (S k) (wire command csize)))
      (OCEANIC_VEO250_PACKET_SIZE + 2)
    = ((OCEANIC_VEO250_PACKET_SIZE + 2, frame_of payload),
       sim_after s rest (packet_events (wire command csize) k))).
  { rewrite (sim_read_bytes _ _ (frame_of payload) rest) by reflexivity.
    rewrite sim_after_after, firstn_all2 by lia.
    rewrite Hflen. unfold packet_events. f_equal. f_equal. lia. }
  rewrite (transfer_after_ack _ _ _ _ _ _ _ Hloop Hread Hflen Hans).
  rewrite <- (frame_of_crc payload Hlen), Z.eqb_refl.
  rewrite (frame_of_last payload Hlen Hps), Z.eqb_refl. reflexivity.
Qed.

(** After more than MAXRETRIES NAKs, whatever follows them. *)
Lemma sim_transfer_rejected (s : sim) (command answer : list Z) (csize : Z)
  (m : nat) (rest : list rx_item) :
  rx s = repeat (RxBytes [NAK]) m ++ rest ->
  MAXRETRIES < Z.of_nat m ->
  exists tail : list rx_item,
    oceanic_veo250_transfer s command csize answer
      (OCEANIC_VEO250_PACKET_SIZE + 2)
    = Returns (DEVICE_STATUS_PROTOCOL, answer,
               sim_after s tail
                 (attempts (S (Z.to_nat MAXRETRIES)) (wire command csize))) /\
    repeat (RxBytes [NAK]) (S (Z.to_nat MAXRETRIES)) ++ tail = rx s.
Proof.
  intros Hrx Hgt.
  destruct m as [| [| [| m']]]; try (unfold MAXRETRIES in Hgt; lia).
  exists (repeat (RxBytes [NAK]) m' ++ rest). split; [| symmetry; exact Hrx].
  apply (transfer_of_loop_response _ _ _ _ _ NAK); [| discriminate].
  apply (sim_loop_exit s command csize 2 NAK); [exact Hrx | | right];
    reflexivity.
Qed.

(** *** The retry bound *)

(** C1: a line that answers the acknowledgement read with NAK [k] times and
    then with ACK, one byte per read.  The transfer gets past the
    acknowledgement stage, that is, it goes on to read the answer frame
    after [k + 1] sends, if and only if [k <= MAXRETRIES]; when the frame
    that follows the ACK is well formed the transfer then returns
    DEVICE_STATUS_SUCCESS with that frame.  On a line that answers NAK more
    than MAXRETRIES times, whether or not an ACK would follow, the transfer
    returns DEVICE_STATUS_PROTOCOL after exactly MAXRETRIES + 1 sends, each
    followed by one acknowledgement read, and reads nothing more. *)
Theorem retry_bound (s : sim) (command answer : list Z) (csize : Z) :
  (forall (k : nat) (rest : list rx_item),
     rx s = repeat (RxBytes [NAK]) k ++ RxBytes [ACK] :: rest ->
     ((exists (rc : device_status_t) (answer1 : list Z) (rest' : list rx_item),
         oceanic_veo250_transfer s command csize answer
           (OCEANIC_VEO250_PACKET_SIZE + 2)
         = Returns (rc, answer1,
                    sim_after s rest'
                      (attempts (S k) (wire command csize)
                         ++ [EvRead (OCEANIC_VEO250_PACKET_SIZE + 2)])))
      <-> Z.of_nat k <= MAXRETRIES) /\
     (Z.of_nat k <= MAXRETRIES ->
      forall (payload : list Z) (rest' : list rx_item),
        rest = RxBytes (frame_of payload) :: rest' ->
        0 <= OCEANIC_VEO250_PACKET_SIZE ->
        length payload = Z.to_nat OCEANIC_VEO250_PACKET_SIZE ->
        length answer = Z.to_nat (OCEANIC_VEO250_PACKET_SIZE + 2) ->
        oceanic_veo250_transfer s command csize answer
          (OCEANIC_VEO250_PACKET_SIZE + 2)
        = Returns (DEVICE_STATUS_SUCCESS, frame_of payload,
                   sim_after s rest'
                     (attempts (S k) (wire command csize)
                        ++ [EvRead (OCEANIC_VEO250_PACKET_SIZE + 2)])))) /\
  (forall (m : nat) (rest : list rx_item),
     rx s = repeat (RxBytes [NAK]) m ++ rest ->
     MAXRETRIES < Z.of_nat m ->
     exists s',
       oceanic_veo250_transfer s command csize answer
         (OCEANIC_VEO250_PACKET_SIZE + 2)
         = Returns (DEVICE_STATUS_PROTOCOL, answer, s') /\
       trace s'
         = trace s ++ attempts (S (Z.to_nat MAXRETRIES)) (wire command csize) /\
       sends (trace s') = (sends (trace s) + S (Z.to_nat MAXRETRIES))%nat /\
       repeat (RxBytes [NAK]) (S (Z.to_nat MAXRETRIES)) ++ rx s' = rx s).
Proof.
  split.
  - intros k rest Hrx. split; [split |].
    + intros [rc [answer1 [rest' Ht]]].
      destruct (Z_le_gt_dec (Z.of_nat k) MAXRETRIES) as [Hle | Hgt];
        [exact Hle |].
      destruct (sim_transfer_rejected s command answer csize k _ Hrx)
        as [tail [Hrej _]]; [lia |].
      rewrite Hrej in Ht.
      apply (f_equal (fun o : outcome (device_status_t * list Z * sim) =>
                        match o with
                        | Returns (_, _, x) => trace x
                        | _ => []
                        end)) in Ht.
      unfold sim_after in Ht. cbn [trace] in Ht. rename Ht into Htr.
      apply app_inv_head in Htr.
      apply (f_equal (@length event)) in Htr.
      rewrite length_app, !attempts_length in Htr.
      simpl in Htr. unfold MAXRETRIES in Hgt. lia.
    + intros Hle.
      assert (Hloop :
        transfer_loop (S (Z.to_nat MAXRETRIES)) s command csize 0 NAK
          = Returns (inr ACK,
                     sim_after s rest
                       (attempts (S k) (wire command csize)))).
      { apply sim_loop_exit; [exact Hrx | exact Hle | left; discriminate]. }
      destruct (sim_transfer_reads_answer _ _ command answer csize Hloop)
        as [rc [answer1 [rest' Ht]]].
      exists rc, answer1, rest'. rewrite Ht, sim_after_after. reflexivity.
    + intros Hle payload rest' Hrest Hps Hlen Hans. subst rest.
      apply sim_transfer_packet_into; assumption.
  - intros m rest Hrx Hgt.
    destruct (sim_transfer_rejected s command answer csize m rest Hrx Hgt)
      as [tail [Hrej Htail]].
    eexists. split; [exact Hrej |].
    split; [reflexivity |]. split; [| exact Htail].
    unfold sim_after. cbn [trace]. rewrite sends_app, sends_attempts.
    reflexivity.
Qed.

Lemma memcpy_chunk (pre mid post src : list Z) (off n : Z) :
  0 <= off -> 0 <= n ->
  length pre = Z.to_nat off ->
  (Z.to_nat n <= length mid)%nat ->
  memcpy (pre ++ mid ++ post) off src n
    = pre ++ firstn (Z.to_nat n) src ++ skipn (Z.to_nat n) mid ++ post.
Proof.
  intros Hoff Hn Hpre Hmid. unfold memcpy.
  rewrite <- Hpre at 1.
  rewrite firstn_app, Nat.sub_diag, firstn_all. simpl firstn.
  rewrite app_nil_r. f_equal. f_equal.
  replace (Z.to_nat (off + n)) with (length pre + Z.to_nat n)%nat by lia.
  rewrite skipn_app, skipn_all2 by lia.
  replace (length pre + Z.to_nat n - length pre)%nat with (Z.to_nat n) by lia.
  simpl. rewrite skipn_app.
  replace (Z.to_nat n - length mid)%nat with 0%nat by lia.
  reflexivity.
Qed.

Lemma wire_read_command (number : Z) :
  wire (read_command number) 6 = read_command number.
Proof. reflexivity. Qed.

Lemma uint_small (x : Z) : 0 <= x < 2 ^ 32 -> uint x = x.
Proof. intros H. unfold uint. apply Z.mod_small. exact H. Qed.

(** The loop over a run of exchanges that succeed: when the script starts
    with the exchanges [pkts] and the part [mid] of the buffer is where
    their payloads go, the loop gets through them and goes on from there. *)
Lemma read_loop_packets (pkts : list (nat * list Z)) :
  forall (fuel : nat) (s : sim) (rest : list rx_item)
         (address off size nbytes : Z) (pre mid post : list Z),
    0 < OCEANIC_VEO250_PACKET_SIZE ->
    rx s = packets_script pkts ++ rest ->
    Forall well_formed_packet pkts ->
    0 <= nbytes ->
    nbytes + OCEANIC_VEO250_PACKET_SIZE * Z.of_nat (length pkts) <= size ->
    size < 2 ^ 32 ->
    0 <= off ->
    length pre = Z.to_nat off ->
    length mid
      = Z.to_nat (OCEANIC_VEO250_PACKET_SIZE * Z.of_nat (length pkts)) ->
    read_loop (length pkts + fuel) s address (pre ++ mid ++ post) off size nbytes
    = read_loop fuel (sim_after s rest (loop_events address pkts))
        (loop_address address (length pkts))
        (pre ++ payloads pkts ++ post)
        (off + OCEANIC_VEO250_PACKET_SIZE * Z.of_nat (length pkts)) size
        (nbytes + OCEANIC_VEO250_PACKET_SIZE * Z.of_nat (length pkts)).
Proof.
  induction pkts as [| [k payload] pkts IH];
    intros fuel s rest address off size nbytes pre mid post
           Hps Hrx Hwf Hnb Hsz H32 Hoff Hpre Hmid.
  - simpl in *. rewrite Z.mul_0_r in *. rewrite !Z.add_0_r.
    destruct mid; [| discriminate].
    rewrite sim_after_nil_script by exact Hrx. reflexivity.
  - inversion Hwf as [| pkt pkts' Hwf1 Hwf2]; subst.
    pose proof Hwf1 as [_ Hlen]. simpl in Hlen.
    change (length ((k, payload) :: pkts)) with (S (length pkts)) in *.
    rewrite Nat2Z.inj_succ, Z.mul_succ_r in *.
    set (m := OCEANIC_VEO250_PACKET_SIZE * Z.of_nat (length pkts)) in *.
    assert (Hm : 0 <= m) by (unfold m; nia).
    simpl packets_script in Hrx. rewrite <- app_assoc in Hrx.
    change (S (length pkts) + fuel)%nat with (S (length pkts + fuel)).
    cbn [read_loop].
    destruct (Z.ltb_spec nbytes size) as [_ | Hge]; [| lia].
    rewrite (sim_transfer_packet s _ 6 k payload _ (Z.lt_le_incl _ _ Hps) Hrx Hwf1).
    cbn [bind]. rewrite wire_read_command.
    rewrite memcpy_chunk by lia.
    rewrite (frame_of_payload _ Hlen).
    rewrite (uint_small (nbytes + OCEANIC_VEO250_PACKET_SIZE)) by lia.
    replace (pre ++ payload ++ skipn (Z.to_nat OCEANIC_VEO250_PACKET_SIZE) mid ++ post)
      with ((pre ++ payload)
              ++ skipn (Z.to_nat OCEANIC_VEO250_PACKET_SIZE) mid ++ post)
      by (rewrite <- app_assoc; reflexivity).
    rewrite (IH fuel _ rest); try assumption; try lia.
    + rewrite sim_after_after. cbn [loop_events loop_address].
      unfold payloads. cbn [map concat snd].
      rewrite <- !app_assoc.
      f_equal; lia.
    + reflexivity.
    + rewrite length_app. lia.
    + rewrite length_skipn. lia.
Qed.

Lemma loop_events_numbers (pkts : list (nat * list Z)) :
  forall address : Z,
    0 < OCEANIC_VEO250_PACKET_SIZE ->
    0 <= address ->
    address mod OCEANIC_VEO250_PACKET_SIZE = 0 ->
    address + OCEANIC_VEO250_PACKET_SIZE * Z.of_nat (length pkts) <= 2 ^ 32 ->
    loop_events address pkts
      = read_events (address / OCEANIC_VEO250_PACKET_SIZE) pkts.
Proof.
  induction pkts as [| [k payload] pkts IH]; intros address Hps Ha Hmod Hle;
    [reflexivity |].
  cbn [loop_events read_events]. f_equal.
  destruct pkts as [| pkt pkts]; [reflexivity |].
  change (length ((k, payload) :: pkt :: pkts))
    with (S (S (length pkts))) in Hle.
  rewrite !Nat2Z.inj_succ, !Z.mul_succ_r in Hle.
  assert (0 <= OCEANIC_VEO250_PACKET_SIZE * Z.of_nat (length pkts)) by nia.
  rewrite uint_small by lia.
  rewrite IH.
  - f_equal.
    replace (address + OCEANIC_VEO250_PACKET_SIZE)
      with (address + 1 * OCEANIC_VEO250_PACKET_SIZE) by lia.
    apply Z.div_add. lia.
  - exact Hps.
  - lia.
  - replace (address + OCEANIC_VEO250_PACKET_SIZE)
      with (address + 1 * OCEANIC_VEO250_PACKET_SIZE) by lia.
    rewrite Z.mod_add by lia. exact Hmod.
  - change (length (pkt :: pkts)) with (S (length pkts)).
    rewrite Nat2Z.inj_succ, Z.mul_succ_r. lia.
Qed.

Lemma loop_address_small (n : nat) :
  forall address : Z,
    0 < OCEANIC_VEO250_PACKET_SIZE ->
    0 <= address ->
    address + OCEANIC_VEO250_PACKET_SIZE * Z.of_nat n < 2 ^ 32 ->
    loop_address address n = address + OCEANIC_VEO250_PACKET_SIZE * Z.of_nat n.
Proof.
  induction n as [| n IH]; intros address Hps Ha Hlt.
  - simpl. lia.
  - rewrite Nat2Z.inj_succ, Z.mul_succ_r in *.
    assert (0 <= OCEANIC_VEO250_PACKET_SIZE * Z.of_nat n) by nia.
    cbn [loop_address]. rewrite uint_small by lia.
    rewrite IH by lia. lia.
Qed.

Lemma read_command_bytes (number : Z) :
  read_command number
    = [0x20; number mod 256; (number / 256) mod 256;
       number mod 256; (number / 256) mod 256; 0].
Proof.
  unfold read_command.
  change 0xFF with (Z.ones 8).
  rewrite !Z.land_ones, Z.shiftr_div_pow2 by lia.
  reflexivity.
Qed.

Lemma split_buffer (data : list Z) (n : nat) :
  (n <= length data)%nat ->
  data = [] ++ firstn n data ++ skipn n data /\ length (firstn n data) = n.
Proof.
  intros H. split.
  - simpl. symmetry. apply firstn_skipn.
  - apply firstn_length_le. exact H.
Qed.

(** C4: read, for an address and a size that are multiples of
    OCEANIC_VEO250_PACKET_SIZE, on a line where every packet transfer
    succeeds (the device may answer NAK up to MAXRETRIES times before it
    acknowledges a command).  The trace consists of one transfer for each
    of the packet numbers address/PACKET_SIZE, address/PACKET_SIZE + 1, ...,
    (address + size)/PACKET_SIZE - 1, in this order, and the command of the
    transfer for [number] is 0x20, the low and the high byte of [number],
    both bytes a second time, and 0.  The call returns
    DEVICE_STATUS_SUCCESS, and the first [size] bytes of the buffer are the
    payloads in the order received while the bytes behind them are as they
    were. *)
Theorem read_packetization
  (fuel : nat) (s : sim) (pkts : list (nat * list Z)) (rest : list rx_item)
  (address size : Z) (data : list Z) :
  0 < OCEANIC_VEO250_PACKET_SIZE ->
  0 <= address ->
  0 <= size < 2 ^ 32 ->
  address + size <= 2 ^ 32 ->
  address mod OCEANIC_VEO250_PACKET_SIZE = 0 ->
  size mod OCEANIC_VEO250_PACKET_SIZE = 0 ->
  Z.of_nat (length pkts) = size / OCEANIC_VEO250_PACKET_SIZE ->
  Forall well_formed_packet pkts ->
  rx s = packets_script pkts ++ rest ->
  (Z.to_nat size <= length data)%nat ->
  (length pkts < fuel)%nat ->
  oceanic_veo250_device_read fuel veo250_handle address data size s
    = Returns (DEVICE_STATUS_SUCCESS,
               payloads pkts ++ skipn (Z.to_nat size) data,
               sim_after s rest
                 (read_events (address / OCEANIC_VEO250_PACKET_SIZE) pkts)) /\
  length (payloads pkts) = Z.to_nat size /\
  address / OCEANIC_VEO250_PACKET_SIZE + Z.of_nat (length pkts)
    = (address + size) / OCEANIC_VEO250_PACKET_SIZE /\
  (forall number : Z,
     read_command number
       = [0x20; number mod 256; (number / 256) mod 256;
          number mod 256; (number / 256) mod 256; 0]).
Proof.
  intros Hps Ha Hsz H32 Hamod Hsmod Hlen Hwf Hrx Hroom Hfuel.
  assert (Hsize : size = OCEANIC_VEO250_PACKET_SIZE * Z.of_nat (length pkts)).
  { rewrite Hlen. apply Z.div_exact; [lia | exact Hsmod]. }
  split; [| split; [| split]].
  - unfold oceanic_veo250_device_read, assert.
    rewrite veo250_handle_ok, Hamod, Hsmod. simpl negb. cbn iota.
    rewrite !Z.eqb_refl.
    destruct (split_buffer data (Z.to_nat size) Hroom) as [Hdata Hmid].
    rewrite Hdata at 1.
    replace fuel with (length pkts + S (fuel - length pkts - 1))%nat by lia.
    rewrite (read_loop_packets pkts _ s rest); try assumption; try lia.
    + cbn [read_loop]. rewrite <- Hsize, Z.add_0_l, Z.ltb_irrefl.
      rewrite loop_events_numbers by (try assumption; lia).
      reflexivity.
    + reflexivity.
  - clear - Hwf Hsize Hps. subst size.
    induction Hwf as [| [k payload] pkts [_ Hp] Hwf IH];
      [simpl; rewrite Z.mul_0_r; reflexivity |].
    unfold payloads in *. cbn [map concat snd]. simpl in Hp.
    rewrite length_app, IH, Hp.
    change (length ((k, payload) :: pkts)) with (S (length pkts)).
    rewrite Nat2Z.inj_succ, Z.mul_succ_r. nia.
  - rewrite Hsize, Z.mul_comm, Z.div_add by lia. reflexivity.
  - exact read_command_bytes.
Qed.

(** C7, as the code has it: when the transfers of the packets [pkts]
    succeed and the transfer of the next packet returns an error [rc], read
    returns [rc] at once, with the line in the state that transfer left, and
    requests no further packet.  The buffer, which is filled in place, then
    holds the payloads of the packets received before the failure, followed
    by its former contents from the offset of the failing packet on. *)
Theorem failed_read_keeps_earlier_packets
  (fuel : nat) (s s' : sim) (pkts : list (nat * list Z)) (rest : list rx_item)
  (address size : Z) (data answer : list Z) (rc : device_status_t) :
  0 < OCEANIC_VEO250_PACKET_SIZE ->
  0 <= address ->
  0 <= size < 2 ^ 32 ->
  address + size <= 2 ^ 32 ->
  address mod OCEANIC_VEO250_PACKET_SIZE = 0 ->
  size mod OCEANIC_VEO250_PACKET_SIZE = 0 ->
  OCEANIC_VEO250_PACKET_SIZE * Z.of_nat (length pkts) < size ->
  Forall well_formed_packet pkts ->
  rx s = packets_script pkts ++ rest ->
  (Z.to_nat size <= length data)%nat ->
  (length pkts < fuel)%nat ->
  oceanic_veo250_transfer
    (sim_after s rest
       (read_events (address / OCEANIC_VEO250_PACKET_SIZE) pkts))
    (read_command
       (address / OCEANIC_VEO250_PACKET_SIZE + Z.of_nat (length pkts)))
    6 (zeros (OCEANIC_VEO250_PACKET_SIZE + 2))
    (OCEANIC_VEO250_PACKET_SIZE + 2)
    = Returns (rc, answer, s') ->
  rc <> DEVICE_STATUS_SUCCESS ->
  oceanic_veo250_device_read fuel veo250_handle address data size s
    = Returns (rc,
               payloads pkts
                 ++ skipn (Z.to_nat (OCEANIC_VEO250_PACKET_SIZE
                                     * Z.of_nat (length pkts))) data,
               s').
Proof.
  intros Hps Ha Hsz H32 Hamod Hsmod Hlt Hwf Hrx Hroom Hfuel Ht Hrc.
  set (m := OCEANIC_VEO250_PACKET_SIZE * Z.of_nat (length pkts)) in *.
  assert (Hm : 0 <= m) by (unfold m; nia).
  unfold oceanic_veo250_device_read, assert.
  rewrite veo250_handle_ok, Hamod, Hsmod. simpl negb. cbn iota.
  rewrite !Z.eqb_refl.
  destruct (split_buffer data (Z.to_nat m)) as [Hdata Hmid]; [lia |].
  rewrite Hdata at 1.
  replace fuel with (length pkts + S (fuel - length pkts - 1))%nat by lia.
  rewrite (read_loop_packets pkts _ s rest);
    try assumption; try lia; [| reflexivity].
  cbn [read_loop]. fold m. rewrite Z.add_0_l.
  destruct (Z.ltb_spec m size) as [_ | Hge]; [| lia].
  rewrite loop_events_numbers by (try assumption; fold m; lia).
  rewrite loop_address_small by (try assumption; fold m; lia).
  fold m.
  replace ((address + m) / OCEANIC_VEO250_PACKET_SIZE)
    with (address / OCEANIC_VEO250_PACKET_SIZE + Z.of_nat (length pkts)).
  - rewrite Ht. cbn [bind]. destruct rc; try reflexivity. contradiction.
  - unfold m. rewrite Z.mul_comm, Z.div_add by lia. reflexivity.
Qed.

End Scripted.

(** ** Further facts that hold on every serial line *)

Section AnyLineMore.

Context {hdr : Veo250Header} {port : Type} {line : Serial port}.

Lemma zeros_length_any (n : Z) : length (zeros n) = Z.to_nat n.
Proof. apply repeat_length. Qed.

(** *** The handshake *)

(** When the banner read delivers 14 bytes, the handshake returns
    DEVICE_STATUS_SUCCESS if they are the bytes of [PPS--OK_V2.00] and the
    final zero, and DEVICE_STATUS_PROTOCOL for every other 14 bytes. *)
Theorem handshake_checks_banner
  (p p1 p2 : port) (st : device_status_t) (bytes : list Z) :
  oceanic_veo250_send p [0x98; 0x00] 2 = (st, p1) ->
  serial_read p1 14 = ((14, bytes), p2) ->
  length bytes = 14%nat ->
  (bytes = handshake_response ->
     oceanic_veo250_handshake p = (DEVICE_STATUS_SUCCESS, p2)) /\
  (bytes <> handshake_response ->
     oceanic_veo250_handshake p = (DEVICE_STATUS_PROTOCOL, p2)).
Proof.
  intros Hs Hr Hlen.
  pose proof (send_always_succeeds p [0x98; 0x00] 2) as Hst.
  rewrite Hs in Hst. simpl in Hst. subst st.
  assert (Hh : oceanic_veo250_handshake p
    = (if bytes_differ bytes handshake_response
       then DEVICE_STATUS_PROTOCOL else DEVICE_STATUS_SUCCESS, p2)).
  { unfold oceanic_veo250_handshake. rewrite Hs, Hr.
    rewrite read_into_full by (rewrite ?zeros_length_any; lia).
    simpl negb. cbn iota.
    destruct (bytes_differ bytes handshake_response); reflexivity. }
  rewrite Hh. unfold bytes_differ.
  destruct (list_eq_dec Z.eq_dec bytes handshake_response) as [He | Hne];
    split; intros H; try reflexivity; contradiction.
Qed.

(** *** What a transfer can return *)

Lemma EXITCODE_range (n : Z) :
  EXITCODE n = DEVICE_STATUS_IO \/ EXITCODE n = DEVICE_STATUS_TIMEOUT.
Proof. unfold EXITCODE. destruct (n =? -1); [left | right]; reflexivity. Qed.

(** The loop returns from the function only when the acknowledgement read
    fails, and never stops in an assertion. *)
Lemma transfer_loop_exits (fuel : nat) :
  forall (p : port) (command : list Z) (csize nretries response : Z),
    match transfer_loop fuel p command csize nretries response with
    | Returns (inl rc, _) =>
        rc = DEVICE_STATUS_IO \/ rc = DEVICE_STATUS_TIMEOUT
    | Returns (inr _, _) => True
    | AssertionFailed => False
    | OutOfFuel => True
    end.
Proof.
  induction fuel as [| fuel IH]; intros p command csize nretries response;
    [exact I |].
  simpl. destruct (response =? NAK); [| exact I].
  destruct (oceanic_veo250_send p command csize) as [st p1] eqn:Hs.
  pose proof (send_always_succeeds p command csize) as Hst.
  rewrite Hs in Hst. simpl in Hst. subst st.
  destruct (serial_read p1 1) as [[n bytes] p2].
  destruct (negb (n =? 1)); [apply EXITCODE_range |].
  destruct (nretries >=? MAXRETRIES); [exact I | apply IH].
Qed.

(** A transfer whose [asize] is right returns. *)
Lemma transfer_returns (p : port) (command answer : list Z) (csize : Z) :
  exists r,
    oceanic_veo250_transfer p command csize answer
      (OCEANIC_VEO250_PACKET_SIZE + 2) = Returns r.
Proof.
  unfold oceanic_veo250_transfer, assert. rewrite Z.eqb_refl.
  pose proof (transfer_loop_total p command csize) as Htot.
  pose proof (transfer_loop_exits (S (Z.to_nat MAXRETRIES)) p command csize
                0 NAK) as Hex.
  destruct (transfer_loop (S (Z.to_nat MAXRETRIES)) p command csize 0 NAK)
    as [[[rc | b] p1] | |]; [| | contradiction | contradiction].
  - eexists. reflexivity.
  - cbn [bind].
    destruct (negb (b =? ACK)); [eexists; reflexivity |].
    destruct (serial_read p1 (OCEANIC_VEO250_PACKET_SIZE + 2))
      as [[n bytes] p2].
    destruct (negb (n =? OCEANIC_VEO250_PACKET_SIZE + 2));
      [eexists; reflexivity |].
    destruct (negb (_ =? _)); [eexists; reflexivity |].
    destruct (negb (_ =? _)); eexists; reflexivity.
Qed.

Lemma transfer_success_frame
  (p p' : port) (command answer answer1 : list Z) (csize asize : Z) :
  oceanic_veo250_transfer p command csize answer asize
    = Returns (DEVICE_STATUS_SUCCESS, answer1, p') ->
  asize = OCEANIC_VEO250_PACKET_SIZE + 2 /\
  byte_at answer1 OCEANIC_VEO250_PACKET_SIZE
    = checksum_add_uint8 answer1 OCEANIC_VEO250_PACKET_SIZE 0 /\
  byte_at answer1 (OCEANIC_VEO250_PACKET_SIZE + 1) = NAK /\
  exists bytes,
    answer1 = read_into answer (OCEANIC_VEO250_PACKET_SIZE + 2) bytes.
Proof.
  unfold oceanic_veo250_transfer, assert.
  destruct (Z.eqb_spec asize (OCEANIC_VEO250_PACKET_SIZE + 2)) as [Ha | Ha];
    [| discriminate].
  pose proof (transfer_loop_exits (S (Z.to_nat MAXRETRIES)) p command csize
                0 NAK) as Hex.
  destruct (transfer_loop (S (Z.to_nat MAXRETRIES)) p command csize 0 NAK)
    as [[[rc | b] p1] | |]; cbn [bind]; try discriminate.
  - intros H. inversion H; subst. destruct Hex; discriminate.
  - destruct (negb (b =? ACK)); [discriminate |].
    destruct (serial_read p1 (OCEANIC_VEO250_PACKET_SIZE + 2))
      as [[n bytes] p2].
    destruct (negb (n =? OCEANIC_VEO250_PACKET_SIZE + 2)).
    { intros H. inversion H as [[H1 H2 H3]].
      destruct (EXITCODE_range n) as [E | E]; rewrite E in H1; discriminate. }
    destruct (Z.eqb_spec
                (byte_at (read_into answer (OCEANIC_VEO250_PACKET_SIZE + 2)
                            bytes) OCEANIC_VEO250_PACKET_SIZE)
                (checksum_add_uint8
                   (read_into answer (OCEANIC_VEO250_PACKET_SIZE + 2) bytes)
                   OCEANIC_VEO250_PACKET_SIZE 0)) as [Hc | Hc];
      [| discriminate].
    destruct (Z.eqb_spec
                (byte_at (read_into answer (OCEANIC_VEO250_PACKET_SIZE + 2)
                            bytes) (OCEANIC_VEO250_PACKET_SIZE + 1)) NAK)
      as [Hn | Hn]; [| discriminate].
    simpl. intros H. inversion H; subst.
    repeat split; try assumption. exists bytes. reflexivity.
Qed.

(** When the loop returns from the function, the acknowledgement read just
    made did not deliver one byte, and the status is its EXITCODE. *)
Lemma transfer_loop_failed_read (fuel : nat) :
  forall (p p' : port) (command : list Z) (csize nretries response : Z)
         (rc : device_status_t),
    transfer_loop fuel p command csize nretries response
      = Returns (inl rc, p') ->
    exists (p1 : port) (n : Z) (bytes : list Z),
      serial_read p1 1 = ((n, bytes), p') /\ n <> 1 /\ rc = EXITCODE n.
Proof.
  induction fuel as [| fuel IH];
    intros p p' command csize nretries response rc H; [discriminate |].
  cbn [transfer_loop] in H.
  destruct (response =? NAK); [| discriminate].
  destruct (oceanic_veo250_send p command csize) as [st p1] eqn:Hs.
  pose proof (send_always_succeeds p command csize) as Hst.
  rewrite Hs in Hst. simpl in Hst. subst st.
  destruct (serial_read p1 1) as [[n bytes] p2] eqn:Hr.
  destruct (Z.eqb_spec n 1) as [Hn | Hn]; cbn [negb] in H.
  - destruct (nretries >=? MAXRETRIES); [discriminate |].
    apply IH in H. exact H.
  - inversion H; subst. exists p1, n, bytes.
    split; [exact Hr | split; [exact Hn | reflexivity]].
Qed.

(** Where the status of a transfer comes from. *)
Lemma transfer_status_origin
  (p p' : port) (command answer answer1 : list Z) (csize asize : Z)
  (rc : device_status_t) :
  oceanic_veo250_transfer p command csize answer asize
    = Returns (rc, answer1, p') ->
  rc = DEVICE_STATUS_SUCCESS \/ rc = DEVICE_STATUS_PROTOCOL \/
  exists (p1 : port) (size n : Z) (bytes : list Z),
    (size = 1 \/ size = OCEANIC_VEO250_PACKET_SIZE + 2) /\
    serial_read p1 size = ((n, bytes), p') /\
    n <> size /\ rc = EXITCODE n.
Proof.
  unfold oceanic_veo250_transfer, assert.
  destruct (asize =? OCEANIC_VEO250_PACKET_SIZE + 2); [| discriminate].
  destruct (transfer_loop (S (Z.to_nat MAXRETRIES)) p command csize 0 NAK)
    as [[[rc0 | b] p1] | |] eqn:Hl; cbn [bind]; try discriminate.
  - intros H. inversion H; subst.
    destruct (transfer_loop_failed_read _ _ _ _ _ _ _ _ Hl)
      as [q [n [bytes [Hr [Hn Hrc]]]]].
    right. right. exists q, 1, n, bytes.
    split; [left; reflexivity | split; [exact Hr | split; assumption]].
  - destruct (negb (b =? ACK)); [intros H; inversion H; tauto |].
    destruct (serial_read p1 (OCEANIC_VEO250_PACKET_SIZE + 2))
      as [[n bytes] p2] eqn:Hr.
    destruct (Z.eqb_spec n (OCEANIC_VEO250_PACKET_SIZE + 2)) as [Hn | Hn];
      cbn [negb].
    + destruct (negb (_ =? _)); [intros H; inversion H; tauto |].
      destruct (negb (_ =? _)); intros H; inversion H; tauto.
    + intros H. inversion H; subst. right. right.
      exists p1, (OCEANIC_VEO250_PACKET_SIZE + 2), n, bytes.
      split; [right; reflexivity | split; [exact Hr | split;
        [exact Hn | reflexivity]]].
Qed.

(** What a successful transfer has read. *)
Lemma transfer_success_read
  (p p' : port) (command answer answer1 : list Z) (csize asize : Z) :
  oceanic_veo250_transfer p command csize answer asize
    = Returns (DEVICE_STATUS_SUCCESS, answer1, p') ->
  exists (p1 : port) (bytes : list Z),
    transfer_loop (S (Z.to_nat MAXRETRIES)) p command csize 0 NAK
      = Returns (inr ACK, p1) /\
    serial_read p1 (OCEANIC_VEO250_PACKET_SIZE + 2)
      = ((OCEANIC_VEO250_PACKET_SIZE + 2, bytes), p') /\
    answer1 = read_into answer (OCEANIC_VEO250_PACKET_SIZE + 2) bytes.
Proof.
  unfold oceanic_veo250_transfer, assert.
  destruct (asize =? OCEANIC_VEO250_PACKET_SIZE + 2); [| discriminate].
  pose proof (transfer_loop_exits (S (Z.to_nat MAXRETRIES)) p command csize
                0 NAK) as Hex.
  destruct (transfer_loop (S (Z.to_nat MAXRETRIES)) p command csize 0 NAK)
    as [[[rc | b] p1] | |]; cbn [bind]; try discriminate.
  - intros H. inversion H; subst. destruct Hex; discriminate.
  - destruct (Z.eqb_spec b ACK) as [Hb | Hb]; cbn [negb]; [| discriminate].
    subst b.
    destruct (serial_read p1 (OCEANIC_VEO250_PACKET_SIZE + 2))
      as [[n bytes] p2] eqn:Hr.
    destruct (Z.eqb_spec n (OCEANIC_VEO250_PACKET_SIZE + 2)) as [Hn | Hn];
      cbn [negb].
    + destruct (negb (_ =? _)); [discriminate |].
      destruct (negb (_ =? _)); [discriminate |].
      intros H. inversion H as [[H2 H3]]. exists p1, bytes.
      split; [reflexivity |]. split; [| reflexivity].
      rewrite Hr, Hn, <- H3. reflexivity.
    + intros H. inversion H as [[H1 H2 H3]].
      destruct (EXITCODE_range n) as [E | E]; rewrite E in H1; discriminate.
Qed.

(** A transfer that returns DEVICE_STATUS_SUCCESS has filled the answer
    buffer with a frame that passes both checks: the byte at index
    OCEANIC_VEO250_PACKET_SIZE is the checksum of the bytes before it and
    the byte after it is NAK. *)
Theorem transfer_success_validates
  (p p' : port) (command answer answer1 : list Z) (csize asize : Z) :
  oceanic_veo250_transfer p command csize answer asize
    = Returns (DEVICE_STATUS_SUCCESS, answer1, p') ->
  asize = OCEANIC_VEO250_PACKET_SIZE + 2 /\
  byte_at answer1 OCEANIC_VEO250_PACKET_SIZE
    = checksum_add_uint8 answer1 OCEANIC_VEO250_PACKET_SIZE 0 /\
  byte_at answer1 (OCEANIC_VEO250_PACKET_SIZE + 1) = NAK.
Proof.
  intros H. destruct (transfer_success_frame _ _ _ _ _ _ _ H)
    as [Ha [Hc [Hn _]]].
  repeat split; assumption.
Qed.

(** A transfer returns one of four statuses: success, a protocol error, an
    I/O error or a timeout.  The last two only come from a failed read:
    when the status is one of them, the transfer has just made a read, of
    the acknowledgement byte or of the answer frame, that returned a count
    [n] other than the length asked for; the status is EXITCODE(n) and the
    line is in the state that read left.  A failed write is never
    reported. *)
Theorem transfer_status_range
  (p p' : port) (command answer answer1 : list Z) (csize asize : Z)
  (rc : device_status_t) :
  oceanic_veo250_transfer p command csize answer asize
    = Returns (rc, answer1, p') ->
  (rc = DEVICE_STATUS_SUCCESS \/ rc = DEVICE_STATUS_PROTOCOL \/
   rc = DEVICE_STATUS_IO \/ rc = DEVICE_STATUS_TIMEOUT) /\
  (rc = DEVICE_STATUS_IO \/ rc = DEVICE_STATUS_TIMEOUT ->
   exists (p1 : port) (size n : Z) (bytes : list Z),
     (size = 1 \/ size = OCEANIC_VEO250_PACKET_SIZE + 2) /\
     serial_read p1 size = ((n, bytes), p') /\
     n <> size /\ rc = EXITCODE n).
Proof.
  intros H.
  destruct (transfer_status_origin _ _ _ _ _ _ _ _ H)
    as [Hrc | [Hrc | [p1 [size [n [bytes [Hsz [Hr [Hn Hrc]]]]]]]]].
  - split; [tauto |]. intros [E | E]; rewrite Hrc in E; discriminate.
  - split; [tauto |]. intros [E | E]; rewrite Hrc in E; discriminate.
  - split.
    + destruct (EXITCODE_range n) as [E | E]; rewrite <- Hrc in E; tauto.
    + intros _. exists p1, size, n, bytes.
      split; [exact Hsz | split; [exact Hr | split; assumption]].
Qed.

(** *** The version query *)

Lemma read_into_length (buf bytes : list Z) (size : Z) :
  (Z.to_nat size <= length buf)%nat ->
  length (read_into buf size bytes) = length buf.
Proof.
  intros H. unfold read_into.
  rewrite length_app, length_skipn, length_firstn. lia.
Qed.

Lemma transfer_success_length
  (p p' : port) (command answer1 : list Z) (csize : Z) :
  oceanic_veo250_transfer p command csize
    (zeros (OCEANIC_VEO250_PACKET_SIZE + 2)) (OCEANIC_VEO250_PACKET_SIZE + 2)
    = Returns (DEVICE_STATUS_SUCCESS, answer1, p') ->
  length answer1 = Z.to_nat (OCEANIC_VEO250_PACKET_SIZE + 2).
Proof.
  intros H. destruct (transfer_success_frame _ _ _ _ _ _ _ H)
    as [_ [_ [_ [bytes ->]]]].
  rewrite read_into_length; rewrite zeros_length_any; lia.
Qed.

(** The version query.  When it fails, whatever the reason, the caller's
    buffer is as it was.  When it succeeds, the command 0x90 0x00 was
    acknowledged and the answer read that followed returned
    OCEANIC_VEO250_PACKET_SIZE + 2: the frame which that read left in the
    answer buffer passed the checksum and the terminator check, its first
    OCEANIC_VEO250_PACKET_SIZE bytes are now at the start of the caller's
    buffer, the rest of the buffer is as it was, and the line is in the
    state that read left. *)
Theorem version_result
  (abstract : option device_t) (data data' : list Z) (size : Z)
  (p p' : port) (rc : device_status_t) :
  oceanic_veo250_device_version abstract data size p
    = Returns (rc, data', p') ->
  (rc <> DEVICE_STATUS_SUCCESS -> data' = data) /\
  (rc = DEVICE_STATUS_SUCCESS ->
     OCEANIC_VEO250_PACKET_SIZE <= size /\
     exists (p1 : port) (bytes : list Z),
       transfer_loop (S (Z.to_nat MAXRETRIES)) p [0x90; 0x00] 2 0 NAK
         = Returns (inr ACK, p1) /\
       serial_read p1 (OCEANIC_VEO250_PACKET_SIZE + 2)
         = ((OCEANIC_VEO250_PACKET_SIZE + 2, bytes), p') /\
       let frame :=
         read_into (zeros (OCEANIC_VEO250_PACKET_SIZE + 2))
           (OCEANIC_VEO250_PACKET_SIZE + 2) bytes in
       length frame = Z.to_nat (OCEANIC_VEO250_PACKET_SIZE + 2) /\
       byte_at frame OCEANIC_VEO250_PACKET_SIZE
         = checksum_add_uint8 frame OCEANIC_VEO250_PACKET_SIZE 0 /\
       byte_at frame (OCEANIC_VEO250_PACKET_SIZE + 1) = NAK /\
       data' = firstn (Z.to_nat OCEANIC_VEO250_PACKET_SIZE) frame
                 ++ skipn (Z.to_nat OCEANIC_VEO250_PACKET_SIZE) data).
Proof.
  unfold oceanic_veo250_device_version.
  destruct (negb (device_is_oceanic_veo250 abstract)).
  { intros H. inversion H; subst. split; [reflexivity | discriminate]. }
  destruct (Z.ltb_spec size OCEANIC_VEO250_PACKET_SIZE) as [Hlt | Hge].
  { intros H. inversion H; subst. split; [reflexivity | discriminate]. }
  destruct (oceanic_veo250_transfer p [0x90; 0x00] 2
              (zeros (OCEANIC_VEO250_PACKET_SIZE + 2))
              (OCEANIC_VEO250_PACKET_SIZE + 2))
    as [[[rc1 answer1] p1] | |] eqn:Ht; cbn [bind]; try discriminate.
  destruct rc1; intros H; inversion H; subst;
    try (split; [reflexivity | discriminate]).
  split; [intros Hne; contradiction |]. intros _.
  split; [exact Hge |].
  destruct (transfer_success_frame _ _ _ _ _ _ _ Ht) as [_ [Hc [Hn _]]].
  pose proof (transfer_success_length _ _ _ _ _ Ht) as Hlen.
  destruct (transfer_success_read _ _ _ _ _ _ _ Ht)
    as [q [bytes [Hl [Hr Ha]]]].
  exists q, bytes. subst answer1.
  split; [exact Hl |]. split; [exact Hr |]. cbv zeta.
  split; [exact Hlen |]. split; [exact Hc |]. split; [exact Hn |].
  reflexivity.
Qed.

(** *** The packetized read and the caller's buffer *)

Lemma memcpy_length (dst src : list Z) (off n : Z) :
  0 <= off -> 0 <= n ->
  (Z.to_nat (off + n) <= length dst)%nat ->
  (Z.to_nat n <= length src)%nat ->
  length (memcpy dst off src n) = length dst.
Proof.
  intros Hoff Hn Hdst Hsrc. unfold memcpy.
  rewrite !length_app, !length_firstn, length_skipn. lia.
Qed.

Lemma memcpy_before (dst src : list Z) (off n : Z) (m : nat) :
  (m <= Z.to_nat off)%nat ->
  (Z.to_nat off <= length dst)%nat ->
  firstn m (memcpy dst off src n) = firstn m dst.
Proof.
  intros Hm Hdst. unfold memcpy.
  rewrite firstn_app, length_firstn.
  replace (m - Nat.min (Z.to_nat off) (length dst))%nat with 0%nat by lia.
  rewrite firstn_firstn, firstn_O, app_nil_r.
  f_equal. lia.
Qed.

Lemma memcpy_after (dst src : list Z) (off n : Z) (m : nat) :
  0 <= off -> 0 <= n ->
  (Z.to_nat (off + n) <= m)%nat ->
  (Z.to_nat (off + n) <= length dst)%nat ->
  (Z.to_nat n <= length src)%nat ->
  skipn m (memcpy dst off src n) = skipn m dst.
Proof.
  intros Hoff Hn Hm Hdst Hsrc. unfold memcpy.
  rewrite skipn_app, length_firstn.
  rewrite (skipn_all2 (n := m)) by (rewrite length_firstn; lia).
  rewrite skipn_app, length_firstn.
  rewrite (skipn_all2 (n := (m - Nat.min (Z.to_nat off) (length dst))%nat))
    by (rewrite length_firstn; lia).
  rewrite skipn_skipn. simpl. f_equal. lia.
Qed.

(** The loop writes only between the offset it starts at and [size]. *)
Lemma read_loop_frame (fuel : nat) :
  forall (k : nat) (p p' : port) (address off size : Z)
         (data data' : list Z) (rc : device_status_t),
    0 < OCEANIC_VEO250_PACKET_SIZE ->
    0 <= off ->
    size = off + OCEANIC_VEO250_PACKET_SIZE * Z.of_nat k ->
    size < 2 ^ 32 ->
    (Z.to_nat size <= length data)%nat ->
    read_loop fuel p address data off size off = Returns (rc, data', p') ->
    length data' = length data /\
    firstn (Z.to_nat off) data' = firstn (Z.to_nat off) data /\
    skipn (Z.to_nat size) data' = skipn (Z.to_nat size) data.
Proof.
  induction fuel as [| fuel IH];
    intros k p p' address off size data data' rc Hps Hoff Hsize H32 Hroom H;
    [discriminate |].
  cbn [read_loop] in H.
  destruct (Z.ltb_spec off size) as [Hlt | Hge].
  - destruct k as [| k];
      [rewrite Z.mul_0_r in Hsize; lia |].
    rewrite Nat2Z.inj_succ, Z.mul_succ_r in Hsize.
    assert (Hm : 0 <= OCEANIC_VEO250_PACKET_SIZE * Z.of_nat k) by nia.
    destruct (oceanic_veo250_transfer p
                (read_command (address / OCEANIC_VEO250_PACKET_SIZE)) 6
                (zeros (OCEANIC_VEO250_PACKET_SIZE + 2))
                (OCEANIC_VEO250_PACKET_SIZE + 2))
      as [[[rc1 answer1] p1] | |] eqn:Ht; cbn [bind] in H; try discriminate.
    destruct rc1;
      try (inversion H; subst; repeat split; reflexivity).
    pose proof (transfer_success_length _ _ _ _ _ Ht) as Hlen.
    rewrite (uint_small (off + OCEANIC_VEO250_PACKET_SIZE)) in H by lia.
    apply (IH k) in H; try assumption; try lia.
    + destruct H as [H1 [H2 H3]].
      rewrite memcpy_length in H1 by lia.
      rewrite memcpy_after in H3 by lia.
      repeat split; [exact H1 | | exact H3].
      assert (H4 : firstn (Z.to_nat off)
                     (firstn (Z.to_nat (off + OCEANIC_VEO250_PACKET_SIZE)) data')
                   = firstn (Z.to_nat off)
                       (firstn (Z.to_nat (off + OCEANIC_VEO250_PACKET_SIZE))
                          (memcpy data off answer1 OCEANIC_VEO250_PACKET_SIZE)))
        by (rewrite H2; reflexivity).
      rewrite !firstn_firstn in H4.
      replace (Nat.min (Z.to_nat off)
                 (Z.to_nat (off + OCEANIC_VEO250_PACKET_SIZE)))
        with (Z.to_nat off) in H4 by lia.
      rewrite H4. apply memcpy_before; lia.
    + rewrite memcpy_length by lia. exact Hroom.
  - inversion H; subst. repeat split; reflexivity.
Qed.

(** A read that returns has left the length of the caller's buffer and
    every byte from index [size] on as they were: with a buffer of at least
    [size] bytes nothing is written outside it, whether the read succeeds or
    fails. *)
Theorem read_stays_in_buffer
  (fuel : nat) (abstract : option device_t) (address size : Z)
  (data data' : list Z) (p p' : port) (rc : device_status_t) :
  0 < OCEANIC_VEO250_PACKET_SIZE ->
  0 <= size < 2 ^ 32 ->
  (Z.to_nat size <= length data)%nat ->
  oceanic_veo250_device_read fuel abstract address data size p
    = Returns (rc, data', p') ->
  length data' = length data /\
  skipn (Z.to_nat size) data' = skipn (Z.to_nat size) data.
Proof.
  intros Hps Hsz Hroom. unfold oceanic_veo250_device_read, assert.
  destruct (negb (device_is_oceanic_veo250 abstract)).
  { intros H. inversion H; subst. split; reflexivity. }
  destruct (address mod OCEANIC_VEO250_PACKET_SIZE =? 0); [| discriminate].
  destruct (Z.eqb_spec (size mod OCEANIC_VEO250_PACKET_SIZE) 0) as [Hmod | ];
    [| discriminate].
  intros H.
  apply (read_loop_frame fuel (Z.to_nat (size / OCEANIC_VEO250_PACKET_SIZE)))
    in H; try assumption; try lia.
  - destruct H as [H1 [_ H3]]. split; assumption.
  - rewrite Z2Nat.id by (apply Z.div_pos; lia).
    rewrite Z.add_0_l. apply Z.div_exact; [lia | exact Hmod].
Qed.

(** *** When the packetized read returns *)

Lemma read_loop_returns (k : nat) :
  forall (fuel : nat) (p : port) (address off size nbytes : Z) (data : list Z),
    0 < OCEANIC_VEO250_PACKET_SIZE ->
    0 <= nbytes ->
    size = nbytes + OCEANIC_VEO250_PACKET_SIZE * Z.of_nat k ->
    size < 2 ^ 32 ->
    (k < fuel)%nat ->
    exists r, read_loop fuel p address data off size nbytes = Returns r.
Proof.
  induction k as [| k IH];
    intros fuel p address off size nbytes data Hps Hnb Hsize H32 Hfuel;
    (destruct fuel as [| fuel]; [lia |]); cbn [read_loop].
  - rewrite Z.mul_0_r, Z.add_0_r in Hsize. subst size.
    rewrite Z.ltb_irrefl. eexists. reflexivity.
  - rewrite Nat2Z.inj_succ, Z.mul_succ_r in Hsize.
    assert (Hm : 0 <= OCEANIC_VEO250_PACKET_SIZE * Z.of_nat k) by nia.
    destruct (Z.ltb_spec nbytes size) as [_ | Hge]; [| lia].
    destruct (transfer_returns p
                (read_command (address / OCEANIC_VEO250_PACKET_SIZE))
                (zeros (OCEANIC_VEO250_PACKET_SIZE + 2)) 6)
      as [[[rc1 answer1] p1] ->].
    cbn [bind].
    destruct rc1; try (eexists; reflexivity).
    rewrite (uint_small (nbytes + OCEANIC_VEO250_PACKET_SIZE)) by lia.
    apply IH; try assumption; lia.
Qed.

(** On the handle of a session, read stops in a failed assertion when the
    address or the size is not a multiple of OCEANIC_VEO250_PACKET_SIZE;
    when both are, it returns a status after at most
    size / OCEANIC_VEO250_PACKET_SIZE iterations, whatever the line does. *)
Theorem read_returns_or_asserts
  (fuel : nat) (abstract : option device_t) (address size : Z)
  (data : list Z) (p : port) :
  device_is_oceanic_veo250 abstract = true ->
  0 < OCEANIC_VEO250_PACKET_SIZE ->
  0 <= size < 2 ^ 32 ->
  (address mod OCEANIC_VEO250_PACKET_SIZE <> 0 \/
   size mod OCEANIC_VEO250_PACKET_SIZE <> 0 ->
     oceanic_veo250_device_read fuel abstract address data size p
       = AssertionFailed) /\
  (address mod OCEANIC_VEO250_PACKET_SIZE = 0 ->
   size mod OCEANIC_VEO250_PACKET_SIZE = 0 ->
   size / OCEANIC_VEO250_PACKET_SIZE < Z.of_nat fuel ->
     exists rc data' p',
       oceanic_veo250_device_read fuel abstract address data size p
         = Returns (rc, data', p')).
Proof.
  intros Hty Hps Hsz. unfold oceanic_veo250_device_read, assert.
  rewrite Hty. simpl negb. cbn iota. split.
  - intros [Ha | Hs].
    + destruct (Z.eqb_spec (address mod OCEANIC_VEO250_PACKET_SIZE) 0);
        [contradiction | reflexivity].
    + destruct (address mod OCEANIC_VEO250_PACKET_SIZE =? 0);
        [| reflexivity].
      destruct (Z.eqb_spec (size mod OCEANIC_VEO250_PACKET_SIZE) 0);
        [contradiction | reflexivity].
  - intros Ha Hs Hfuel. rewrite Ha, Hs, !Z.eqb_refl.
    destruct (read_loop_returns
                (Z.to_nat (size / OCEANIC_VEO250_PACKET_SIZE)) fuel p address
                0 size 0 data) as [[[rc data'] p'] Hr]; try assumption; try lia.
    + rewrite Z2Nat.id by (apply Z.div_pos; lia).
      rewrite Z.add_0_l. apply Z.div_exact; [lia | exact Hs].
    + assert (0 <= size / OCEANIC_VEO250_PACKET_SIZE)
        by (apply Z.div_pos; lia).
      lia.
    + exists rc, data', p'. exact Hr.
Qed.

(** *** Reading a range in two parts *)

(** Beyond the number of packets left, the budget of the loop does not
    matter. *)
Lemma read_loop_fuel (k : nat) :
  forall (f f' : nat) (p : port) (address off size nbytes : Z) (data : list Z),
    0 < OCEANIC_VEO250_PACKET_SIZE ->
    0 <= nbytes ->
    size = nbytes + OCEANIC_VEO250_PACKET_SIZE * Z.of_nat k ->
    size < 2 ^ 32 ->
    (k < f)%nat -> (k < f')%nat ->
    read_loop f p address data off size nbytes
      = read_loop f' p address data off size nbytes.
Proof.
  induction k as [| k IH];
    intros f f' p address off size nbytes data Hps Hnb Hsize H32 Hf Hf';
    (destruct f as [| f]; [lia |]); (destruct f' as [| f']; [lia |]);
    cbn [read_loop].
  - rewrite Z.mul_0_r, Z.add_0_r in Hsize. subst size.
    rewrite Z.ltb_irrefl. reflexivity.
  - rewrite Nat2Z.inj_succ, Z.mul_succ_r in Hsize.
    assert (Hm : 0 <= OCEANIC_VEO250_PACKET_SIZE * Z.of_nat k) by nia.
    destruct (Z.ltb_spec nbytes size) as [_ | Hge]; [| lia].
    destruct (oceanic_veo250_transfer p
                (read_command (address / OCEANIC_VEO250_PACKET_SIZE)) 6
                (zeros (OCEANIC_VEO250_PACKET_SIZE + 2))
                (OCEANIC_VEO250_PACKET_SIZE + 2))
      as [[[rc1 answer1] p1] | |]; cbn [bind]; try reflexivity.
    destruct rc1; try reflexivity.
    rewrite (uint_small (nbytes + OCEANIC_VEO250_PACKET_SIZE)) by lia.
    apply IH; try assumption; lia.
Qed.

(** The loop up to [size], cut after [k] packets. *)
Lemma read_loop_split (k : nat) :
  forall (f : nat) (p : port) (address off size nbytes : Z) (data : list Z),
    0 < OCEANIC_VEO250_PACKET_SIZE ->
    0 <= nbytes ->
    nbytes + OCEANIC_VEO250_PACKET_SIZE * Z.of_nat k <= size ->
    size < 2 ^ 32 ->
    read_loop (k + f) p address data off size nbytes
    = match read_loop (S k) p address data off
              (nbytes + OCEANIC_VEO250_PACKET_SIZE * Z.of_nat k) nbytes with
      | Returns (DEVICE_STATUS_SUCCESS, data1, p1) =>
          read_loop f p1 (loop_address address k) data1
            (off + OCEANIC_VEO250_PACKET_SIZE * Z.of_nat k) size
            (nbytes + OCEANIC_VEO250_PACKET_SIZE * Z.of_nat k)
      | r => r
      end.
Proof.
  induction k as [| k IH];
    intros f p address off size nbytes data Hps Hnb Hle H32.
  - cbn [read_loop Nat.add loop_address]. simpl Z.of_nat.
    rewrite Z.mul_0_r, !Z.add_0_r, Z.ltb_irrefl. reflexivity.
  - rewrite Nat2Z.inj_succ, Z.mul_succ_r in *.
    assert (Hm : 0 <= OCEANIC_VEO250_PACKET_SIZE * Z.of_nat k) by nia.
    change (S k + f)%nat with (S (k + f)).
    cbn [read_loop loop_address].
    destruct (Z.ltb_spec nbytes size) as [_ | Hge]; [| lia].
    destruct (Z.ltb_spec nbytes
                (nbytes + (OCEANIC_VEO250_PACKET_SIZE * Z.of_nat k
                           + OCEANIC_VEO250_PACKET_SIZE)))
      as [_ | Hge]; [| lia].
    destruct (oceanic_veo250_transfer p
                (read_command (address / OCEANIC_VEO250_PACKET_SIZE)) 6
                (zeros (OCEANIC_VEO250_PACKET_SIZE + 2))
                (OCEANIC_VEO250_PACKET_SIZE + 2))
      as [[[rc1 answer1] p1] | |]; cbn [bind]; try reflexivity.
    destruct rc1; try reflexivity.
    rewrite (uint_small (nbytes + OCEANIC_VEO250_PACKET_SIZE)) by lia.
    rewrite IH by lia.
    replace (nbytes + OCEANIC_VEO250_PACKET_SIZE
             + OCEANIC_VEO250_PACKET_SIZE * Z.of_nat k)
      with (nbytes + (OCEANIC_VEO250_PACKET_SIZE * Z.of_nat k
                      + OCEANIC_VEO250_PACKET_SIZE)) by lia.
    replace (off + OCEANIC_VEO250_PACKET_SIZE
             + OCEANIC_VEO250_PACKET_SIZE * Z.of_nat k)
      with (off + (OCEANIC_VEO250_PACKET_SIZE * Z.of_nat k
                   + OCEANIC_VEO250_PACKET_SIZE)) by lia.
    reflexivity.
Qed.

Lemma memcpy_prefix (pre dst src : list Z) (off n : Z) :
  0 <= off -> 0 <= n ->
  memcpy (pre ++ dst) (Z.of_nat (length pre) + off) src n
    = pre ++ memcpy dst off src n.
Proof.
  intros Hoff Hn. unfold memcpy.
  replace (Z.to_nat (Z.of_nat (length pre) + off))
    with (length pre + Z.to_nat off)%nat by lia.
  replace (Z.to_nat (Z.of_nat (length pre) + off + n))
    with (length pre + Z.to_nat (off + n))%nat by lia.
  rewrite firstn_app, firstn_all2 by lia.
  rewrite skipn_app, skipn_all2 by lia.
  replace (length pre + Z.to_nat off - length pre)%nat
    with (Z.to_nat off) by lia.
  replace (length pre + Z.to_nat (off + n) - length pre)%nat
    with (Z.to_nat (off + n)) by lia.
  rewrite <- app_assoc. reflexivity.
Qed.

(** The loop on the part of a buffer that starts [c] bytes into it. *)
Lemma read_loop_shift (fuel : nat) :
  forall (k : nat) (p : port) (address off size nbytes c : Z)
         (pre data : list Z),
    0 < OCEANIC_VEO250_PACKET_SIZE ->
    0 <= off -> 0 <= nbytes ->
    c = Z.of_nat (length pre) ->
    size = nbytes + OCEANIC_VEO250_PACKET_SIZE * Z.of_nat k ->
    c + size < 2 ^ 32 ->
    read_loop fuel p address (pre ++ data) (c + off) (c + size) (c + nbytes)
    = match read_loop fuel p address data off size nbytes with
      | Returns (rc, data', p') => Returns (rc, pre ++ data', p')
      | AssertionFailed => AssertionFailed
      | OutOfFuel => OutOfFuel
      end.
Proof.
  induction fuel as [| fuel IH];
    intros k p address off size nbytes c pre data Hps Hoff Hnb Hc Hsize H32;
    [reflexivity |].
  cbn [read_loop].
  destruct (Z.ltb_spec nbytes size) as [Hlt | Hge];
    (destruct (Z.ltb_spec (c + nbytes) (c + size)) as [Hlt' | Hge'];
     try lia); [| reflexivity].
  destruct k as [| k]; [rewrite Z.mul_0_r in Hsize; lia |].
  rewrite Nat2Z.inj_succ, Z.mul_succ_r in Hsize.
  assert (Hm : 0 <= OCEANIC_VEO250_PACKET_SIZE * Z.of_nat k) by nia.
  destruct (oceanic_veo250_transfer p
              (read_command (address / OCEANIC_VEO250_PACKET_SIZE)) 6
              (zeros (OCEANIC_VEO250_PACKET_SIZE + 2))
              (OCEANIC_VEO250_PACKET_SIZE + 2))
    as [[[rc1 answer1] p1] | |]; cbn [bind]; try reflexivity.
  destruct rc1; try reflexivity.
  rewrite (uint_small (nbytes + OCEANIC_VEO250_PACKET_SIZE)) by lia.
  rewrite (uint_small (c + nbytes + OCEANIC_VEO250_PACKET_SIZE)) by lia.
  subst c. rewrite memcpy_prefix by lia.
  rewrite <- !Z.add_assoc.
  apply (IH k); try assumption; try lia; reflexivity.
Qed.

(** Reading [size1 + size2] bytes in one call does what reading [size1]
    bytes and then, if that succeeded, reading the following [size2] bytes
    into the rest of the buffer does: the same status, the same buffer and
    the same state of the line. *)
Theorem read_in_two_parts
  (f f1 f2 : nat) (abstract : option device_t) (address size1 size2 : Z)
  (data : list Z) (p : port) :
  device_is_oceanic_veo250 abstract = true ->
  0 < OCEANIC_VEO250_PACKET_SIZE ->
  0 <= address ->
  address mod OCEANIC_VEO250_PACKET_SIZE = 0 ->
  0 <= size1 -> size1 mod OCEANIC_VEO250_PACKET_SIZE = 0 ->
  0 <= size2 -> size2 mod OCEANIC_VEO250_PACKET_SIZE = 0 ->
  size1 + size2 < 2 ^ 32 ->
  address + size1 < 2 ^ 32 ->
  (Z.to_nat (size1 + size2) <= length data)%nat ->
  size1 / OCEANIC_VEO250_PACKET_SIZE < Z.of_nat f1 ->
  size2 / OCEANIC_VEO250_PACKET_SIZE < Z.of_nat f2 ->
  (size1 + size2) / OCEANIC_VEO250_PACKET_SIZE < Z.of_nat f ->
  oceanic_veo250_device_read f abstract address data (size1 + size2) p
  = match oceanic_veo250_device_read f1 abstract address data size1 p with
    | Returns (DEVICE_STATUS_SUCCESS, data1, p1) =>
        match oceanic_veo250_device_read f2 abstract (address + size1)
                (skipn (Z.to_nat size1) data1) size2 p1 with
        | Returns (rc, data2, p2) =>
            Returns (rc, firstn (Z.to_nat size1) data1 ++ data2, p2)
        | AssertionFailed => AssertionFailed
        | OutOfFuel => OutOfFuel
        end
    | r => r
    end.
Proof.
  intros Hty Hps Ha Hamod Hs1 Hm1 Hs2 Hm2 H32 Ha32 Hroom Hf1 Hf2 Hf.
  set (k1 := Z.to_nat (size1 / OCEANIC_VEO250_PACKET_SIZE)).
  set (k2 := Z.to_nat (size2 / OCEANIC_VEO250_PACKET_SIZE)).
  assert (Hk1 : size1 = OCEANIC_VEO250_PACKET_SIZE * Z.of_nat k1).
  { unfold k1. rewrite Z2Nat.id by (apply Z.div_pos; lia).
    apply Z.div_exact; [lia | exact Hm1]. }
  assert (Hk2 : size2 = OCEANIC_VEO250_PACKET_SIZE * Z.of_nat k2).
  { unfold k2. rewrite Z2Nat.id by (apply Z.div_pos; lia).
    apply Z.div_exact; [lia | exact Hm2]. }
  assert (Hk12 : size1 + size2
                 = OCEANIC_VEO250_PACKET_SIZE * Z.of_nat (k1 + k2)).
  { rewrite Nat2Z.inj_add. lia. }
  assert (Hdiv : (size1 + size2) / OCEANIC_VEO250_PACKET_SIZE
                 = Z.of_nat (k1 + k2)).
  { rewrite Hk12, Z.mul_comm, Z.div_mul by lia. reflexivity. }
  assert (Hdiv1 : size1 / OCEANIC_VEO250_PACKET_SIZE = Z.of_nat k1).
  { rewrite Hk1 at 1. rewrite Z.mul_comm, Z.div_mul by lia. reflexivity. }
  assert (Hdiv2 : size2 / OCEANIC_VEO250_PACKET_SIZE = Z.of_nat k2).
  { rewrite Hk2 at 1. rewrite Z.mul_comm, Z.div_mul by lia. reflexivity. }
  assert (Hm12 : (size1 + size2) mod OCEANIC_VEO250_PACKET_SIZE = 0).
  { rewrite Hk12, Z.mul_comm. apply Z.mod_mul. lia. }
  assert (Hma : (address + size1) mod OCEANIC_VEO250_PACKET_SIZE = 0).
  { rewrite Hk1, Z.mul_comm, Z.mod_add by lia. exact Hamod. }
  unfold oceanic_veo250_device_read, assert.
  rewrite Hty, Hamod, Hm1, Hm2, Hm12, Hma. simpl negb. cbn iota.
  rewrite !Z.eqb_refl.
  rewrite (read_loop_fuel k1 f1 (S k1)) by (try assumption; lia).
  rewrite (read_loop_fuel (k1 + k2) f (k1 + S k2)) by (try assumption; lia).
  rewrite read_loop_split by lia.
  rewrite !Z.add_0_l, <- Hk1.
  destruct (read_loop (S k1) p address data 0 size1 0)
    as [[[rc1 data1] p1] | |] eqn:H1; try reflexivity.
  destruct rc1; try reflexivity.
  apply (read_loop_frame _ k1) in H1; try assumption; try lia.
  destruct H1 as [Hlen _].
  rewrite (read_loop_fuel k2 f2 (S k2)) by (try assumption; lia).
  rewrite loop_address_small by (try assumption; lia).
  rewrite <- Hk1.
  rewrite <- (firstn_skipn (Z.to_nat size1) data1) at 1.
  assert (Hpre : size1 = Z.of_nat (length (firstn (Z.to_nat size1) data1))).
  { rewrite length_firstn. lia. }
  pose proof (read_loop_shift (S k2) k2 p1 (address + size1) 0 size2 0 size1
                (firstn (Z.to_nat size1) data1)
                (skipn (Z.to_nat size1) data1)) as Hshift.
  rewrite !Z.add_0_r in Hshift.
  apply Hshift; try assumption; lia.
Qed.

(** *** The read command and the packet number *)

(** The second and third byte of a read command are the packet number
    modulo 65536 in little-endian order, each a byte; the fourth and fifth
    repeat them. *)
Theorem read_command_number (number : Z) :
  0 <= number ->
  let command := read_command number in
  0 <= byte_at command 1 < 256 /\
  0 <= byte_at command 2 < 256 /\
  byte_at command 1 + 256 * byte_at command 2 = number mod 65536 /\
  byte_at command 3 = byte_at command 1 /\
  byte_at command 4 = byte_at command 2.
Proof.
  intros Hn command. unfold command. rewrite read_command_bytes.
  unfold byte_at. simpl nth.
  repeat split; try (apply Z.mod_pos_bound; lia).
  change 65536 with (256 * 256).
  rewrite Z.rem_mul_r by lia. reflexivity.
Qed.

(** Packet numbers below 65536 have different read commands. *)
Theorem read_command_injective (m n : Z) :
  0 <= m < 65536 ->
  0 <= n < 65536 ->
  read_command m = read_command n ->
  m = n.
Proof.
  intros Hm Hn H. rewrite !read_command_bytes in H.
  inversion H as [[H1 H2]].
  rewrite <- (Z.mod_small m 65536), <- (Z.mod_small n 65536) by lia.
  change 65536 with (256 * 256).
  rewrite !Z.rem_mul_r by lia. rewrite H1, H2. reflexivity.
Qed.

End AnyLineMore.

(** ** Further facts on the scripted line *)

Section ScriptedMore.

Context {hdr : Veo250Header}.

Lemma sim_loop_trace (fuel : nat) :
  forall (s s' : sim) (command : list Z) (csize nretries response : Z)
         (exit : device_status_t + Z),
    transfer_loop fuel s command csize nretries response
      = Returns (exit, s') ->
    exists (n : nat) (rest : list rx_item),
      (n <= fuel)%nat /\
      (response = NAK -> (1 <= n)%nat) /\
      s' = sim_after s rest (attempts n (wire command csize)).
Proof.
  induction fuel as [| fuel IH];
    intros s s' command csize nretries response exit H; [discriminate |].
  cbn [transfer_loop] in H.
  destruct (Z.eqb_spec response NAK) as [Hr | Hr].
  - rewrite sim_send in H.
    destruct (sim_read_any
                (sim_after s (rx s) [EvWrite (wire command csize); EvDrain]) 1)
      as [n [bytes [rest Hread]]].
    rewrite Hread, sim_after_after in H.
    change ([EvWrite (wire command csize); EvDrain] ++ [EvRead 1])
      with (attempt (wire command csize)) in H.
    assert (Hone : sim_after s rest (attempt (wire command csize))
                   = sim_after s rest (attempts 1 (wire command csize))).
    { cbn [attempts]. rewrite app_nil_r. reflexivity. }
    destruct (negb (n =? 1)).
    { inversion H; subst. exists 1%nat, rest.
      split; [lia | split; [intros; lia | exact Hone]]. }
    destruct (nretries >=? MAXRETRIES).
    { inversion H; subst. exists 1%nat, rest.
      split; [lia | split; [intros; lia | exact Hone]]. }
    apply IH in H. destruct H as [m [rest' [Hm [_ Hs]]]].
    exists (S m), rest'. rewrite sim_after_after in Hs.
    split; [lia | split; [intros; lia | exact Hs]].
  - inversion H; subst. exists 0%nat, (rx s').
    split; [lia | split; [intros; contradiction |]].
    simpl. symmetry. apply sim_after_nil.
Qed.

(** Whatever the line answers, a transfer that returns has sent the command
    at least once and at most MAXRETRIES + 1 times, has read one
    acknowledgement byte after each send, and has then read the answer frame
    at most once (always, when it succeeds).  It has done nothing else on
    the line. *)
Theorem transfer_wire_bound
  (s s' : sim) (command answer answer1 : list Z) (csize asize : Z)
  (rc : device_status_t) :
  oceanic_veo250_transfer s command csize answer asize
    = Returns (rc, answer1, s') ->
  exists (n : nat) (rest : list rx_item) (tail : list event),
    (1 <= n <= S (Z.to_nat MAXRETRIES))%nat /\
    (tail = [EvRead (OCEANIC_VEO250_PACKET_SIZE + 2)] \/
     tail = [] /\ rc <> DEVICE_STATUS_SUCCESS) /\
    s' = sim_after s rest (attempts n (wire command csize) ++ tail).
Proof.
  unfold oceanic_veo250_transfer, assert.
  destruct (asize =? OCEANIC_VEO250_PACKET_SIZE + 2); [| discriminate].
  pose proof (transfer_loop_exits (S (Z.to_nat MAXRETRIES)) s command csize
                0 NAK) as Hex.
  destruct (transfer_loop (S (Z.to_nat MAXRETRIES)) s command csize 0 NAK)
    as [[exit s1] | |] eqn:Hl; cbn [bind]; try discriminate.
  apply sim_loop_trace in Hl.
  destruct Hl as [n [rest [Hn [Hn1 Hs1]]]]. specialize (Hn1 eq_refl).
  assert (Hquiet : forall st a,
    Returns (st, a, s1) = Returns (rc, answer1, s') ->
    st <> DEVICE_STATUS_SUCCESS ->
    exists (n : nat) (rest : list rx_item) (tail : list event),
      (1 <= n <= S (Z.to_nat MAXRETRIES))%nat /\
      (tail = [EvRead (OCEANIC_VEO250_PACKET_SIZE + 2)] \/
       tail = [] /\ rc <> DEVICE_STATUS_SUCCESS) /\
      s' = sim_after s rest (attempts n (wire command csize) ++ tail)).
  { intros st a H Hst. inversion H; subst.
    exists n, rest, []. rewrite app_nil_r.
    split; [lia | split; [| reflexivity]].
    right. split; [reflexivity | assumption]. }
  destruct exit as [rc0 | b].
  - intros H. apply (Hquiet _ _ H). destruct Hex; subst; discriminate.
  - destruct (negb (b =? ACK)); [intros H; apply (Hquiet _ _ H); discriminate |].
    destruct (sim_read_any s1 (OCEANIC_VEO250_PACKET_SIZE + 2))
      as [m [bytes [rest' Hread]]].
    rewrite Hread.
    assert (Hloud : forall st a,
      Returns (st, a, sim_after s1 rest'
                        [EvRead (OCEANIC_VEO250_PACKET_SIZE + 2)])
        = Returns (rc, answer1, s') ->
      exists (n : nat) (rest : list rx_item) (tail : list event),
        (1 <= n <= S (Z.to_nat MAXRETRIES))%nat /\
        (tail = [EvRead (OCEANIC_VEO250_PACKET_SIZE + 2)] \/
         tail = [] /\ rc <> DEVICE_STATUS_SUCCESS) /\
        s' = sim_after s rest (attempts n (wire command csize) ++ tail)).
    { intros st a H. inversion H; subst.
      exists n, rest', [EvRead (OCEANIC_VEO250_PACKET_SIZE + 2)].
      rewrite sim_after_after.
      split; [lia | split; [| reflexivity]].
      left. reflexivity. }
    destruct (negb (m =? OCEANIC_VEO250_PACKET_SIZE + 2)); [apply Hloud |].
    destruct (negb (_ =? _)); [apply Hloud |].
    destruct (negb (_ =? _)); apply Hloud.
Qed.

(** The version query answered by a well-formed exchange: the call returns
    DEVICE_STATUS_SUCCESS, the payload is at the start of the caller's
    buffer, the rest of the buffer is as it was, and the trace is that of
    one transfer of the command 0x90 0x00. *)
Theorem version_end_to_end
  (s : sim) (k : nat) (payload data : list Z) (size : Z)
  (rest : list rx_item) :
  0 <= OCEANIC_VEO250_PACKET_SIZE <= size ->
  rx s = packet_script k payload ++ rest ->
  well_formed_packet (k, payload) ->
  oceanic_veo250_device_version veo250_handle data size s
    = Returns (DEVICE_STATUS_SUCCESS,
               payload ++ skipn (Z.to_nat OCEANIC_VEO250_PACKET_SIZE) data,
               sim_after s rest (packet_events [0x90; 0x00] k)).
Proof.
  intros Hps Hrx Hwf. unfold oceanic_veo250_device_version.
  rewrite veo250_handle_ok. simpl negb. cbn iota.
  destruct (Z.ltb_spec size OCEANIC_VEO250_PACKET_SIZE) as [Hlt | _]; [lia |].
  rewrite (sim_transfer_packet s _ 2 k payload rest) by (try assumption; lia).
  cbn [bind]. unfold memcpy. simpl firstn at 1.
  rewrite (frame_of_payload payload) by (apply Hwf).
  rewrite Z.add_0_l. reflexivity.
Qed.

Lemma sim_read_packets
  (fuel : nat) (s : sim) (pkts : list (nat * list Z)) (rest : list rx_item)
  (size : Z) (data : list Z) :
  0 < OCEANIC_VEO250_PACKET_SIZE ->
  0 <= size < 2 ^ 32 ->
  size = OCEANIC_VEO250_PACKET_SIZE * Z.of_nat (length pkts) ->
  Forall well_formed_packet pkts ->
  rx s = packets_script pkts ++ rest ->
  (Z.to_nat size <= length data)%nat ->
  (length pkts < fuel)%nat ->
  oceanic_veo250_device_read fuel veo250_handle 0 data size s
    = Returns (DEVICE_STATUS_SUCCESS,
               payloads pkts ++ skipn (Z.to_nat size) data,
               sim_after s rest (read_events 0 pkts)).
Proof.
  intros Hps Hsz Hsize Hwf Hrx Hroom Hfuel.
  assert (Hsmod : size mod OCEANIC_VEO250_PACKET_SIZE = 0).
  { rewrite Hsize, Z.mul_comm. apply Z.mod_mul. lia. }
  unfold oceanic_veo250_device_read, assert.
  rewrite veo250_handle_ok, Hsmod, Z.mod_0_l by lia.
  simpl negb. cbn iota. rewrite !Z.eqb_refl.
  destruct (split_buffer data (Z.to_nat size) Hroom) as [Hdata Hmid].
  rewrite Hdata at 1.
  replace fuel with (length pkts + S (fuel - length pkts - 1))%nat by lia.
  rewrite (read_loop_packets pkts _ s rest);
    try assumption; try lia; [| reflexivity].
  cbn [read_loop]. rewrite <- Hsize, Z.add_0_l, Z.ltb_irrefl.
  rewrite loop_events_numbers by (try assumption; try lia; apply Z.mod_0_l; lia).
  rewrite Z.div_0_l by lia. reflexivity.
Qed.

(** A dump from a device that answers every packet: with a capacity of at
    least OCEANIC_VEO250_MEMORY_SIZE the call asks for the packets 0, 1, ...
    up to the last one of the memory, returns DEVICE_STATUS_SUCCESS, stores
    OCEANIC_VEO250_MEMORY_SIZE in the result cell, and the first
    OCEANIC_VEO250_MEMORY_SIZE bytes of the buffer are the payloads in
    order; bytes of the buffer beyond that are as they were. *)
Theorem dump_end_to_end
  (fuel : nat) (s : sim) (pkts : list (nat * list Z)) (rest : list rx_item)
  (size old : Z) (data : list Z) :
  0 < OCEANIC_VEO250_PACKET_SIZE ->
  0 <= OCEANIC_VEO250_MEMORY_SIZE < 2 ^ 32 ->
  OCEANIC_VEO250_MEMORY_SIZE
    = OCEANIC_VEO250_PACKET_SIZE * Z.of_nat (length pkts) ->
  Forall well_formed_packet pkts ->
  rx s = packets_script pkts ++ rest ->
  OCEANIC_VEO250_MEMORY_SIZE <= size ->
  (Z.to_nat OCEANIC_VEO250_MEMORY_SIZE <= length data)%nat ->
  (length pkts < fuel)%nat ->
  oceanic_veo250_device_dump fuel veo250_handle data size (Some old) s
    = Returns (DEVICE_STATUS_SUCCESS,
               payloads pkts
                 ++ skipn (Z.to_nat OCEANIC_VEO250_MEMORY_SIZE) data,
               Some OCEANIC_VEO250_MEMORY_SIZE,
               sim_after s rest (read_events 0 pkts)).
Proof.
  intros Hps Hms Hsize Hwf Hrx Hcap Hroom Hfuel.
  unfold oceanic_veo250_device_dump.
  rewrite veo250_handle_ok. simpl negb. cbn iota.
  destruct (Z.ltb_spec size OCEANIC_VEO250_MEMORY_SIZE) as [Hlt | _]; [lia |].
  rewrite (sim_read_packets fuel s pkts rest) by assumption.
  reflexivity.
Qed.

Lemma sim_handshake_any (s : sim) :
  exists (st : device_status_t) (rest : list rx_item),
    oceanic_veo250_handshake s
      = (st, sim_after s rest [EvWrite [0x98; 0x00]; EvDrain; EvRead 14]).
Proof.
  unfold oceanic_veo250_handshake. rewrite sim_send.
  destruct (sim_read_any
              (sim_after s (rx s) [EvWrite (wire [0x98; 0x00] 2); EvDrain]) 14)
    as [n [bytes [rest Hread]]].
  rewrite Hread, sim_after_after.
  change ([EvWrite (wire [0x98; 0x00] 2); EvDrain] ++ [EvRead 14])
    with [EvWrite [0x98; 0x00]; EvDrain; EvRead 14].
  destruct (negb (n =? 14)); [eexists _, rest; reflexivity |].
  destruct (bytes_differ (read_into (zeros 14) 14 bytes) handshake_response);
    eexists _, rest; reflexivity.
Qed.

(** Whatever the line answers, close on the handle of a session writes the
    handshake command 0x98 0x00, drains, reads 14 bytes and closes the
    line, in this order and nothing else; its status depends only on
    whether closing the line failed. *)
Theorem close_wire (s : sim) :
  exists rest : list rx_item,
    oceanic_veo250_device_close veo250_handle s
      = (if close_fail s then DEVICE_STATUS_IO else DEVICE_STATUS_SUCCESS,
         sim_after s rest
           [EvWrite [0x98; 0x00]; EvDrain; EvRead 14; EvClose],
         true).
Proof.
  unfold oceanic_veo250_device_close. rewrite veo250_handle_ok.
  simpl negb. cbn iota.
  destruct (sim_handshake_any s) as [st [rest ->]].
  exists rest. simpl. unfold sim_close, sim_log, sim_after. simpl.
  rewrite <- app_assoc. destruct (close_fail s); reflexivity.
Qed.

End ScriptedMore.

(** ** Opening a session *)

Section OpeningFacts.

Context {port : Type} {line : Serial port} {setup : SerialSetup port}.

(** When the port opens and takes its settings, open goes on to the init
    and handshake commands and succeeds whatever they return. *)
Lemma open_when_setup_succeeds
  (p p1 p2 p3 p4 p5 p6 p7 : port) (r1 r2 r3 r4 r5 r6 r7 : Z)
  (cell : option device_t) (name : String.string) :
  serial_open p name = (r1, p1) -> r1 <> -1 ->
  serial_configure p1 9600 8 SERIAL_PARITY_NONE 1 SERIAL_FLOWCONTROL_NONE
    = (r2, p2) -> r2 <> -1 ->
  serial_set_timeout p2 3000 = (r3, p3) -> r3 <> -1 ->
  serial_set_dtr p3 1 = (r4, p4) -> r4 <> -1 ->
  serial_set_rts p4 1 = (r5, p5) -> r5 <> -1 ->
  serial_sleep p5 100 = (r6, p6) ->
  serial_flush p6 SERIAL_QUEUE_BOTH = (r7, p7) ->
  oceanic_veo250_device_open (Some cell) true name p
    = (DEVICE_STATUS_SUCCESS, Some veo250_handle, true,
       snd (oceanic_veo250_handshake (snd (oceanic_veo250_init p7)))).
Proof.
  intros H1 N1 H2 N2 H3 N3 H4 N4 H5 N5 H6 H7.
  unfold oceanic_veo250_device_open. cbn [negb].
  rewrite H1. destruct (Z.eqb_spec r1 (-1)); [contradiction |].
  rewrite H2. destruct (Z.eqb_spec r2 (-1)); [contradiction |].
  rewrite H3. destruct (Z.eqb_spec r3 (-1)); [contradiction |].
  rewrite H4. destruct (Z.eqb_spec r4 (-1)); [contradiction |].
  rewrite H5. destruct (Z.eqb_spec r5 (-1)); [contradiction |].
  rewrite H6, H7.
  destruct (oceanic_veo250_init p7) as [st8 p8]. cbn [snd].
  destruct (oceanic_veo250_handshake p8) as [st9 p9]. reflexivity.
Qed.

End OpeningFacts.

(** ** The life of a session, on the scripted host *)

Section Hosted.

Lemma host_after_after (h : host) (l1 l2 : sim) (o1 o2 : bool)
  (e1 e2 : list host_event) :
  host_after (host_after h l1 o1 e1) l2 o2 e2 = host_after h l2 o2 (e1 ++ e2).
Proof. unfold host_after. simpl. rewrite app_assoc. reflexivity. Qed.

Lemma is_open_host_after (h : host) (l : sim) (o : bool)
  (e : list host_event) :
  is_open (host_after h l o e) = o.
Proof. reflexivity. Qed.

Lemma wire_line_host_after (h : host) (l : sim) (o : bool)
  (e : list host_event) :
  wire_line (host_after h l o e) = l.
Proof. reflexivity. Qed.

Lemma host_send (h : host) (command : list Z) (csize : Z) :
  exists l : sim,
    oceanic_veo250_send h command csize
      = (DEVICE_STATUS_SUCCESS,
         host_after h l (is_open h)
           [HostIO (EvWrite (wire command csize)); HostIO EvDrain]) /\
    close_fail l = close_fail (wire_line h).
Proof.
  eexists. split.
  - unfold oceanic_veo250_send. simpl.
    unfold host_write, host_drain, host_step, host_after. simpl.
    rewrite <- app_assoc. reflexivity.
  - reflexivity.
Qed.

Lemma host_read_any (h : host) (size : Z) :
  exists (r : Z * list Z) (l : sim),
    serial_read h size
      = (r, host_after h l (is_open h) [HostIO (EvRead size)]) /\
    close_fail l = close_fail (wire_line h).
Proof.
  simpl. unfold host_read, sim_read.
  destruct (rx (wire_line h)) as [| [bytes | rc] rest];
    eexists _, _; split; reflexivity.
Qed.

Lemma host_init (h : host) :
  exists l : sim,
    oceanic_veo250_init h
      = (DEVICE_STATUS_SUCCESS,
         host_after h l (is_open h)
           [HostIO (EvWrite [0x55; 0x00]); HostIO EvDrain]) /\
    close_fail l = close_fail (wire_line h).
Proof.
  unfold oceanic_veo250_init.
  destruct (host_send h [0x55; 0x00] 2) as [l [-> Hl]].
  exists l. split; [reflexivity | exact Hl].
Qed.

Lemma host_handshake (h : host) :
  exists (st : device_status_t) (l : sim),
    oceanic_veo250_handshake h
      = (st, host_after h l (is_open h)
               [HostIO (EvWrite [0x98; 0x00]); HostIO EvDrain;
                HostIO (EvRead 14)]) /\
    close_fail l = close_fail (wire_line h).
Proof.
  unfold oceanic_veo250_handshake.
  destruct (host_send h [0x98; 0x00] 2) as [l [-> Hl]].
  destruct (host_read_any
              (host_after h l (is_open h)
                 [HostIO (EvWrite (wire [0x98; 0x00] 2)); HostIO EvDrain]) 14)
    as [[n bytes] [l' [-> Hl']]].
  rewrite host_after_after. simpl in Hl'.
  change ([HostIO (EvWrite (wire [0x98; 0x00] 2)); HostIO EvDrain]
            ++ [HostIO (EvRead 14)])
    with [HostIO (EvWrite [0x98; 0x00]); HostIO EvDrain; HostIO (EvRead 14)].
  destruct (negb (n =? 14));
    [eexists _, l'; split; [reflexivity | congruence] |].
  destruct (bytes_differ (read_into (zeros 14) 14 bytes) handshake_response);
    eexists _, l'; split; try reflexivity; congruence.
Qed.

Lemma host_open_success (h : host) (cell : option device_t)
  (name : String.string) :
  setup_works h = true ->
  exists l : sim,
    oceanic_veo250_device_open (Some cell) true name h
      = (DEVICE_STATUS_SUCCESS, Some veo250_handle, true,
         host_after h l true (open_history name)) /\
    close_fail l = close_fail (wire_line h).
Proof.
  destruct h as [l0 f1 f2 f3 f4 f5 o hist]. unfold setup_works.
  cbn [open_fail configure_fail timeout_fail dtr_fail rts_fail wire_line].
  destruct f1, f2, f3, f4, f5; try discriminate. intros _.
  set (h := mkHost l0 false false false false false o hist).
  set (e1 := [HostOpen name]).
  set (e2 := e1 ++ [HostConfigure 9600 8 SERIAL_PARITY_NONE 1
                      SERIAL_FLOWCONTROL_NONE]).
  set (e3 := e2 ++ [HostTimeout 3000]).
  set (e4 := e3 ++ [HostDTR 1]).
  set (e5 := e4 ++ [HostRTS 1]).
  set (e6 := e5 ++ [HostSleep 100]).
  set (e7 := e6 ++ [HostFlush SERIAL_QUEUE_BOTH]).
  assert (Hstep : forall (evs : list host_event) (e : host_event),
    host_setup (host_after h l0 true evs) false e
      = (0, host_after h l0 true (evs ++ [e]))).
  { intros evs e. unfold host_setup, host_step, host_after, host_rc.
    cbn [wire_line open_fail configure_fail timeout_fail dtr_fail rts_fail
         is_open history].
    rewrite <- app_assoc. reflexivity. }
  assert (N : 0 <> -1) by discriminate.
  rewrite (open_when_setup_succeeds h
             (host_after h l0 true e1) (host_after h l0 true e2)
             (host_after h l0 true e3) (host_after h l0 true e4)
             (host_after h l0 true e5) (host_after h l0 true e6)
             (host_after h l0 true e7) 0 0 0 0 0 0 0 cell name);
    try exact N; try (exact (Hstep _ _)); [| reflexivity].
  destruct (host_init (host_after h l0 true e7)) as [l1 [-> Hl1]].
  cbn [snd]. rewrite is_open_host_after, host_after_after.
  destruct (host_handshake
              (host_after h l1 true
                 (e7 ++ [HostIO (EvWrite [0x55; 0x00]); HostIO EvDrain])))
    as [st [l2 [-> Hl2]]].
  cbn [snd]. rewrite is_open_host_after, host_after_after.
  rewrite wire_line_host_after in Hl1, Hl2.
  exists l2. split.
  - unfold e7, e6, e5, e4, e3, e2, e1, open_history.
    rewrite <- !app_assoc. reflexivity.
  - congruence.
Qed.

Lemma host_open_failure (h : host) (out : option (option device_t))
  (heap_ok : bool) (name : String.string) :
  out = None \/ heap_ok = false \/ setup_works h = false ->
  exists (st : device_status_t) (h' : host),
    oceanic_veo250_device_open out heap_ok name h = (st, out, false, h') /\
    st <> DEVICE_STATUS_SUCCESS /\
    (is_open h = false -> is_open h' = false) /\
    (out = None \/ heap_ok = false -> h' = h).
Proof.
  intros H. destruct out as [cell |].
  2:{ eexists _, _. split; [reflexivity |].
      split; [discriminate | split; [intros Ho; exact Ho | reflexivity]]. }
  destruct heap_ok.
  2:{ eexists _, _. split; [reflexivity |].
      split; [discriminate | split; [intros Ho; exact Ho | reflexivity]]. }
  destruct H as [H | [H | H]]; try discriminate.
  destruct h as [l0 f1 f2 f3 f4 f5 o hist]. unfold setup_works in H.
  simpl in H.
  destruct f1, f2, f3, f4, f5; try discriminate;
    (eexists _, _; split; [reflexivity |];
     split; [discriminate |];
     split; [simpl; intros Ho; first [exact Ho | reflexivity] |];
     intros [Hn | Hn]; discriminate).
Qed.

(** Open succeeds exactly when [out] is not null, [malloc] finds memory and
    none of serial_open, serial_configure, serial_set_timeout,
    serial_set_dtr and serial_set_rts fails: what the device answers to the
    init and handshake commands, and whether they could be written at all,
    makes no difference.  On success the handle is stored, the object stays
    allocated and the port is open; on failure the cell behind [out] is
    untouched, the object is not allocated and the port is not left
    open. *)
Theorem open_outcome (h : host) (out : option (option device_t))
  (heap_ok : bool) (name : String.string) :
  is_open h = false ->
  let '(st, out', alive, h') :=
    oceanic_veo250_device_open out heap_ok name h in
  (st = DEVICE_STATUS_SUCCESS
   <-> out <> None /\ heap_ok = true /\ setup_works h = true) /\
  (st = DEVICE_STATUS_SUCCESS ->
     out' = Some veo250_handle /\ alive = true /\ is_open h' = true /\
     history h' = history h ++ open_history name) /\
  (st <> DEVICE_STATUS_SUCCESS ->
     out' = out /\ alive = false /\ is_open h' = false).
Proof.
  intros Hclosed.
  destruct out as [cell |] eqn:Hout;
    [destruct heap_ok eqn:Hheap;
     [destruct (setup_works h) eqn:Hsetup |] |].
  - destruct (host_open_success h cell name Hsetup) as [l [-> _]].
    split; [split; [intros _; repeat split; discriminate | reflexivity] |].
    split; [intros _; repeat split | intros Hne; contradiction].
  - destruct (host_open_failure h (Some cell) true name)
      as [st [h' [-> [Hst [Ho _]]]]]; [right; right; exact Hsetup |].
    split; [split; [intros E; contradiction
                   | intros [_ [_ E]]; discriminate] |].
    split; [intros E; contradiction |].
    intros _. repeat split. apply Ho. exact Hclosed.
  - destruct (host_open_failure h (Some cell) false name)
      as [st [h' [-> [Hst [Ho _]]]]]; [right; left; reflexivity |].
    split; [split; [intros E; contradiction
                   | intros [_ [E _]]; discriminate] |].
    split; [intros E; contradiction |].
    intros _. repeat split. apply Ho. exact Hclosed.
  - destruct (host_open_failure h None heap_ok name)
      as [st [h' [-> [Hst [Ho _]]]]]; [left; reflexivity |].
    split; [split; [intros E; contradiction
                   | intros [E _]; contradiction] |].
    split; [intros E; contradiction |].
    intros _. repeat split. apply Ho. exact Hclosed.
Qed.

(** A session from open to close, on a host whose setup primitives work:
    open returns DEVICE_STATUS_SUCCESS and a handle; close on that handle
    frees the object and leaves the port closed, and its status is
    DEVICE_STATUS_IO when closing the line fails and DEVICE_STATUS_SUCCESS
    otherwise.  In between open and close the host has seen the setup of
    the port, the init command, the handshake twice and the close, in this
    order. *)
Theorem open_then_close (h : host) (cell : option device_t)
  (name : String.string) :
  setup_works h = true ->
  let '(st, out', alive, h1) :=
    oceanic_veo250_device_open (Some cell) true name h in
  st = DEVICE_STATUS_SUCCESS /\
  exists handle : option device_t,
    out' = Some handle /\
    let '(st2, h2, freed) := oceanic_veo250_device_close handle h1 in
    st2 = (if close_fail (wire_line h)
           then DEVICE_STATUS_IO else DEVICE_STATUS_SUCCESS) /\
    freed = true /\
    is_open h2 = false /\
    history h2 = history h ++ open_history name ++ close_history.
Proof.
  intros Hsetup.
  destruct (host_open_success h cell name Hsetup) as [l [-> Hl]].
  split; [reflexivity |]. exists veo250_handle. split; [reflexivity |].
  unfold oceanic_veo250_device_close. rewrite veo250_handle_ok.
  simpl negb. cbn iota.
  destruct (host_handshake (host_after h l true (open_history name)))
    as [st [l' [-> Hl']]].
  rewrite host_after_after. simpl in Hl'.
  simpl. unfold host_close, sim_close. simpl.
  rewrite Hl', Hl.
  destruct (close_fail (wire_line h)); simpl;
    (repeat split; rewrite <- !app_assoc; reflexivity).
Qed.

End Hosted.

(** ** Runs on concrete exchanges *)

(** C9: on a line where serial_write and serial_drain both fail with -1,
    init still returns DEVICE_STATUS_SUCCESS.  It writes the two bytes 0x55
    0x00, drains, and reads nothing. *)
Theorem init_succeeds_when_send_fails :
  let s := mkSim [] true false [] in
  fst (serial_write s [0x55; 0x00] 2) = -1 /\
  fst (serial_drain s) = -1 /\
  oceanic_veo250_init s
    = (DEVICE_STATUS_SUCCESS,
       mkSim [] true false [EvWrite [0x55; 0x00]; EvDrain]).
Proof. repeat split. Qed.

(** C2, as stated, fails: the line answers the first acknowledgement read
    with the byte 0x00 (neither ACK nor NAK) and would answer 0x00 again.
    The command is sent once, not three times. *)
Lemma unrecognized_byte_is_not_retried :
  ~ every_non_ack_is_retried tiny_header.
Proof.
  intros H.
  destruct (H (sim_init (ack_bytes [0; 0; 0])) [0x90; 0x00] (zeros 4) 2
              [0; 0; 0] [])
    as [s' [Ht Hs]].
  - reflexivity.
  - repeat constructor; discriminate.
  - reflexivity.
  - vm_compute in Ht. inversion Ht; subst s'. vm_compute in Hs. discriminate.
Qed.

(** C7, as stated, fails: a read of five packets of 2 bytes into a buffer of
    zeros, where the first two transfers deliver 1 2 and 3 4 and the answer
    frame of the third never arrives.  The call returns
    DEVICE_STATUS_TIMEOUT and the buffer starts with 1 2 3 4. *)
Lemma failed_read_exposes_earlier_packets :
  ~ @failed_read_leaves_buffer tiny_header.
Proof.
  intros H.
  pose (s := sim_init (packets_script [(O, [1; 2]); (O, [3; 4])]
                         ++ [RxBytes [ACK]; RxBytes []])).
  assert (E : exists s',
    @oceanic_veo250_device_read tiny_header sim _ 6 veo250_handle 0
      (zeros 10) 10 s
      = Returns (DEVICE_STATUS_TIMEOUT, [1; 2; 3; 4; 0; 0; 0; 0; 0; 0], s')).
  { eexists. vm_compute. reflexivity. }
  destruct E as [s' E].
  specialize (H _ _ _ _ _ _ _ _ E).
  assert (Hne : DEVICE_STATUS_TIMEOUT <> DEVICE_STATUS_SUCCESS) by discriminate.
  specialize (H Hne). vm_compute in H. discriminate.
Qed.

(** *** Instances of the theorems *)

(** A handle of another backend: read and close touch nothing. *)
Lemma foreign_handle_type_mismatch_witness :
  let abstract := Some {| backend := other_device_backend 7 |} in
  let s := sim_init [RxBytes [ACK]] in
  (abstract = None \/
   (exists d, abstract = Some d /\ backend d <> oceanic_veo250_device_backend)) /\
  @oceanic_veo250_device_read tiny_header sim _ 3 abstract 0 [7; 7] 2 s
    = Returns (DEVICE_STATUS_TYPE_MISMATCH, [7; 7], s) /\
  oceanic_veo250_device_close abstract s
    = (DEVICE_STATUS_TYPE_MISMATCH, s, false).
Proof.
  intros abstract s.
  assert (H : abstract = None \/
    (exists d, abstract = Some d /\ backend d <> oceanic_veo250_device_backend)).
  { right. eexists. split; [reflexivity | discriminate]. }
  split; [exact H |].
  destruct (@foreign_handle_type_mismatch tiny_header sim _ abstract s [7; 7]
              0 2 None 3 H) as [_ [Hr [_ Hc]]].
  split; [exact Hr | exact Hc].
Defined.

(** The handshake times out and serial_close fails: close returns
    DEVICE_STATUS_IO, the line was closed and the object freed. *)
Lemma close_releases_whatever_handshake_says_witness :
  let s := mkSim [] false true [] in
  let s1 := mkSim [] false true [EvWrite [0x98; 0x00]; EvDrain; EvRead 14] in
  let s2 :=
    mkSim [] false true [EvWrite [0x98; 0x00]; EvDrain; EvRead 14; EvClose] in
  device_is_oceanic_veo250 veo250_handle = true /\
  oceanic_veo250_handshake s = (DEVICE_STATUS_TIMEOUT, s1) /\
  serial_close s1 = (-1, s2) /\
  oceanic_veo250_device_close veo250_handle s = (DEVICE_STATUS_IO, s2, true).
Proof.
  intros s s1 s2.
  assert (H1 : device_is_oceanic_veo250 veo250_handle = true) by reflexivity.
  assert (H2 : oceanic_veo250_handshake s = (DEVICE_STATUS_TIMEOUT, s1))
    by reflexivity.
  assert (H3 : serial_close s1 = (-1, s2)) by reflexivity.
  split; [exact H1 |]. split; [exact H2 |]. split; [exact H3 |].
  exact (close_releases_whatever_handshake_says veo250_handle s s1 s2
           DEVICE_STATUS_TIMEOUT (-1) H1 H2 H3).
Defined.

(** With 4 bytes of memory: a capacity of 3 is refused, a capacity of 5
    gets the 4 bytes and the result 4. *)
Lemma dump_capacity_check_witness :
  let s := sim_init (packets_script [(O, [1; 2]); (1%nat, [3; 4])]) in
  device_is_oceanic_veo250 veo250_handle = true /\
  (3 < 4 /\
   @oceanic_veo250_device_dump tiny_header sim _ 3 veo250_handle [0; 0; 0] 3
     (Some 0) s
     = Returns (DEVICE_STATUS_ERROR, [0; 0; 0], Some 0, s)) /\
  (4 <= 5 /\
   exists s',
     @oceanic_veo250_device_dump tiny_header sim _ 3 veo250_handle
       [0; 0; 0; 0; 0] 5 (Some 0) s
       = Returns (DEVICE_STATUS_SUCCESS, [1; 2; 3; 4; 0], Some 4, s')).
Proof.
  intros s.
  assert (H : device_is_oceanic_veo250 veo250_handle = true) by reflexivity.
  split; [exact H |]. split.
  - assert (Hlt : 3 < 4) by lia. split; [exact Hlt |].
    exact (proj1 (@dump_capacity_check tiny_header sim _ veo250_handle s
                    [0; 0; 0] 3 (Some 0) 3%nat H) Hlt).
  - assert (Hle : 4 <= 5) by lia. split; [exact Hle |].
    eexists.
    exact (proj2 (@dump_capacity_check tiny_header sim _ veo250_handle s
                    [0; 0; 0; 0; 0] 5 (Some 0) 3%nat H) Hle).
Defined.

(** A NAK followed by a failing acknowledgement read, and a handshake whose
    banner stops after 2 bytes. *)
Lemma failed_read_classification_witness :
  let command := [0x90; 0x00] in
  let s := sim_init [RxBytes [NAK]; RxError (-1)] in
  let s' := mkSim [RxError (-1)] false false (attempt command) in
  let s1 := sim_after s' [RxError (-1)] [EvWrite command; EvDrain] in
  let s2 := sim_after s1 [] [EvRead 1] in
  let h := mkSim [RxBytes [0x50; 0x50]] false false [] in
  let h1 := sim_after h [RxBytes [0x50; 0x50]] [EvWrite [0x98; 0x00]; EvDrain] in
  let h2 := sim_after h1 [] [EvRead 14] in
  (nak_rounds command 2 1 s s' /\
   Z.of_nat 1 <= MAXRETRIES /\
   oceanic_veo250_send s' command 2 = (DEVICE_STATUS_SUCCESS, s1) /\
   serial_read s1 1 = ((-1, []), s2) /\
   -1 <> 1 /\
   @oceanic_veo250_transfer tiny_header sim _ s command 2 (zeros 4) 4
     = Returns (DEVICE_STATUS_IO, zeros 4, s2)) /\
  (oceanic_veo250_send h [0x98; 0x00] 2 = (DEVICE_STATUS_SUCCESS, h1) /\
   serial_read h1 14 = ((2, [0x50; 0x50]), h2) /\
   2 <> 14 /\
   oceanic_veo250_handshake h = (DEVICE_STATUS_TIMEOUT, h2)).
Proof.
  intros command s s' s1 s2 h h1 h2.
  destruct (@failed_read_classification tiny_header sim _)
    as [_ [Hack [_ Hbanner]]].
  split.
  - assert (Hk : nak_rounds command 2 1 s s').
    { eapply nak_rounds_S; [reflexivity | reflexivity | apply nak_rounds_O]. }
    assert (Hle : Z.of_nat 1 <= MAXRETRIES) by (unfold MAXRETRIES; lia).
    assert (Hs : oceanic_veo250_send s' command 2 = (DEVICE_STATUS_SUCCESS, s1))
      by reflexivity.
    assert (Hr : serial_read s1 1 = ((-1, []), s2)) by reflexivity.
    assert (Hn : -1 <> 1) by lia.
    repeat (split; [assumption |]).
    exact (Hack command 2 (zeros 4) 1%nat s s' s1 s2 _ (-1) [] Hk Hle Hs Hr Hn).
  - assert (Hs : oceanic_veo250_send h [0x98; 0x00] 2
                 = (DEVICE_STATUS_SUCCESS, h1)) by reflexivity.
    assert (Hr : serial_read h1 14 = ((2, [0x50; 0x50]), h2)) by reflexivity.
    assert (Hn : 2 <> 14) by lia.
    repeat (split; [assumption |]).
    exact (Hbanner h h1 h2 _ 2 [0x50; 0x50] Hs Hr Hn).
Defined.

(** An acknowledged command answered by the frame 1 2 4 0xA5, whose
    checksum byte should be 3. *)
Lemma answer_frame_validation_witness :
  let command := [0x90; 0x00] in
  let bad := [1; 2; 4; NAK] in
  let s := sim_init [RxBytes [ACK]; RxBytes bad] in
  let s1 := mkSim [RxBytes bad] false false (attempt command) in
  let s2 := mkSim [] false false (attempt command ++ [EvRead 4]) in
  transfer_loop (S (Z.to_nat MAXRETRIES)) s command 2 0 NAK
    = Returns (inr ACK, s1) /\
  serial_read s1 4 = ((4, bad), s2) /\
  length bad = Z.to_nat 4 /\
  length (zeros 4) = Z.to_nat 4 /\
  byte_at bad 2 <> checksum_add_uint8 bad 2 0 /\
  @oceanic_veo250_transfer tiny_header sim _ s command 2 (zeros 4) 4
    = Returns (DEVICE_STATUS_PROTOCOL, bad, s2).
Proof.
  intros command bad s s1 s2.
  assert (Hl : transfer_loop (S (Z.to_nat MAXRETRIES)) s command 2 0 NAK
               = Returns (inr ACK, s1)) by reflexivity.
  assert (Hr : serial_read s1 4 = ((4, bad), s2)) by reflexivity.
  assert (Hlen : length bad = Z.to_nat 4) by reflexivity.
  assert (Hans : length (zeros 4) = Z.to_nat 4) by reflexivity.
  assert (Hcrc : byte_at bad 2 <> checksum_add_uint8 bad 2 0)
    by (vm_compute; discriminate).
  repeat (split; [assumption |]).
  exact (proj1 (@answer_frame_validation tiny_header sim _ command 2 (zeros 4)
                  bad s s1 s2 Hl Hr Hlen Hans) (or_introl Hcrc)).
Defined.

(** Two NAKs before the ACK are tolerated and the frame that follows is
    delivered; a line that only ever answers NAK is given up after three
    sends. *)
Lemma retry_bound_witness :
  let command := [0x90; 0x00] in
  let s := sim_init (repeat (RxBytes [NAK]) 2
                       ++ [RxBytes [ACK]; RxBytes (frame_of [1; 2])]) in
  let t := sim_init (repeat (RxBytes [NAK]) 5) in
  (rx s = repeat (RxBytes [NAK]) 2
            ++ RxBytes [ACK] :: [RxBytes (frame_of [1; 2])] /\
   Z.of_nat 2 <= MAXRETRIES /\
   0 <= 2 /\ length [1; 2] = Z.to_nat 2 /\ length (zeros 4) = Z.to_nat (2 + 2) /\
   @oceanic_veo250_transfer tiny_header sim _ s command 2 (zeros 4) 4
     = Returns (DEVICE_STATUS_SUCCESS, frame_of [1; 2],
                sim_after s [] (attempts 3 command ++ [EvRead 4]))) /\
  (rx t = repeat (RxBytes [NAK]) 5 ++ [] /\
   MAXRETRIES < Z.of_nat 5 /\
   exists t',
     @oceanic_veo250_transfer tiny_header sim _ t command 2 (zeros 4) 4
       = Returns (DEVICE_STATUS_PROTOCOL, zeros 4, t') /\
     sends (trace t') = 3%nat /\
     rx t' = repeat (RxBytes [NAK]) 2).
Proof.
  intros command s t. split.
  - assert (Hrx : rx s = repeat (RxBytes [NAK]) 2
                    ++ RxBytes [ACK] :: [RxBytes (frame_of [1; 2])])
      by reflexivity.
    assert (Hle : Z.of_nat 2 <= MAXRETRIES) by (unfold MAXRETRIES; lia).
    assert (Hps : 0 <= 2) by lia.
    assert (Hlen : length [1; 2] = Z.to_nat 2) by reflexivity.
    assert (Hans : length (zeros 4) = Z.to_nat (2 + 2)) by reflexivity.
    repeat (split; [assumption |]).
    exact (proj2 (proj1 (@retry_bound tiny_header s command (zeros 4) 2)
                    2%nat _ Hrx) Hle [1; 2] [] eq_refl Hps Hlen Hans).
  - assert (Hrx : rx t = repeat (RxBytes [NAK]) 5 ++ []) by reflexivity.
    assert (Hgt : MAXRETRIES < Z.of_nat 5) by (unfold MAXRETRIES; lia).
    repeat (split; [assumption |]).
    destruct (proj2 (@retry_bound tiny_header t command (zeros 4) 2)
                5%nat [] Hrx Hgt) as [t' [Ht [_ [Hs Hr]]]].
    exists t'. split; [exact Ht |]. split; [exact Hs |].
    simpl in Hr. inversion Hr as [Hr']. exact Hr'.
Defined.

(** The byte 0x00 as first acknowledgement: one send, protocol error, and
    the ACK that would have followed is left unread. *)
Lemma retry_only_on_nak_witness :
  let command := [0x90; 0x00] in
  let s := sim_init [RxBytes [0x00]; RxBytes [ACK]] in
  rx s = repeat (RxBytes [NAK]) 0 ++ RxBytes [0x00] :: [RxBytes [ACK]] /\
  Z.of_nat 0 <= MAXRETRIES /\
  0x00 <> ACK /\
  (0x00 <> NAK \/ Z.of_nat 0 = MAXRETRIES) /\
  @oceanic_veo250_transfer tiny_header sim _ s command 2 (zeros 4) 4
    = Returns (DEVICE_STATUS_PROTOCOL, zeros 4,
               sim_after s [RxBytes [ACK]] (attempt command)).
Proof.
  intros command s.
  assert (Hrx : rx s
    = repeat (RxBytes [NAK]) 0 ++ RxBytes [0x00] :: [RxBytes [ACK]])
    by reflexivity.
  assert (Hle : Z.of_nat 0 <= MAXRETRIES) by (unfold MAXRETRIES; lia).
  assert (Hack : 0x00 <> ACK) by discriminate.
  assert (Hb : 0x00 <> NAK \/ Z.of_nat 0 = MAXRETRIES)
    by (left; discriminate).
  repeat (split; [assumption |]).
  exact (@retry_only_on_nak tiny_header s command (zeros 4) 2 0%nat 0x00
           [RxBytes [ACK]] Hrx Hle Hack Hb).
Defined.

(** A read of 4 bytes at address 6 with packets of 2 bytes: packets 3 and 4,
    the second after one NAK. *)
Lemma read_packetization_witness :
  let pkts := [(O, [1; 2]); (1%nat, [3; 4])] in
  let s := sim_init (packets_script pkts) in
  let number := read_command in
  (0 < 2 /\ 0 <= 6 /\ 0 <= 4 < 2 ^ 32 /\ 6 + 4 <= 2 ^ 32 /\
   6 mod 2 = 0 /\ 4 mod 2 = 0 /\ Z.of_nat (length pkts) = 4 / 2 /\
   Forall (well_formed_packet (hdr := tiny_header)) pkts /\
   rx s = packets_script pkts ++ [] /\
   (Z.to_nat 4 <= length [9; 9; 9; 9; 9])%nat /\
   (length pkts < 3)%nat) /\
  @oceanic_veo250_device_read tiny_header sim _ 3 veo250_handle 6
    [9; 9; 9; 9; 9] 4 s
    = Returns (DEVICE_STATUS_SUCCESS, [1; 2; 3; 4; 9],
               mkSim [] false false
                 [EvWrite (number 3); EvDrain; EvRead 1; EvRead 4;
                  EvWrite (number 4); EvDrain; EvRead 1;
                  EvWrite (number 4); EvDrain; EvRead 1; EvRead 4]).
Proof.
  intros pkts s number.
  assert (H1 : 0 < 2) by lia.
  assert (H2 : 0 <= 6) by lia.
  assert (H3 : 0 <= 4 < 2 ^ 32) by lia.
  assert (H4 : 6 + 4 <= 2 ^ 32) by lia.
  assert (H5 : 6 mod 2 = 0) by reflexivity.
  assert (H6 : 4 mod 2 = 0) by reflexivity.
  assert (H7 : Z.of_nat (length pkts) = 4 / 2) by reflexivity.
  assert (H8 : Forall (well_formed_packet (hdr := tiny_header)) pkts).
  { repeat constructor; simpl; unfold MAXRETRIES; lia. }
  assert (H9 : rx s = packets_script pkts ++ []) by reflexivity.
  assert (H10 : (Z.to_nat 4 <= length [9; 9; 9; 9; 9])%nat) by (simpl; lia).
  assert (H11 : (length pkts < 3)%nat) by (simpl; lia).
  split; [repeat (split; [assumption |]); assumption |].
  exact (proj1 (@read_packetization tiny_header 3 s pkts [] 6 4
                  [9; 9; 9; 9; 9] H1 H2 H3 H4 H5 H6 H7 H8 H9 H10 H11)).
Defined.

(** Five packets of 2 bytes asked for, the third arrives with a wrong
    checksum. *)
Lemma failed_read_keeps_earlier_packets_witness :
  let pkts := [(O, [1; 2]); (O, [3; 4])] in
  let rest := [RxBytes [ACK]; RxBytes [5; 6; 0; NAK]] in
  let s := sim_init (packets_script pkts ++ rest) in
  let s2 := sim_after s rest (read_events (hdr := tiny_header) (0 / 2) pkts) in
  let s' :=
    sim_after s2 [] [EvWrite (read_command 2); EvDrain; EvRead 1; EvRead 4] in
  (0 < 2 /\ 0 <= 0 /\ 0 <= 10 < 2 ^ 32 /\ 0 + 10 <= 2 ^ 32 /\
   0 mod 2 = 0 /\ 10 mod 2 = 0 /\ 2 * Z.of_nat (length pkts) < 10 /\
   Forall (well_formed_packet (hdr := tiny_header)) pkts /\
   rx s = packets_script pkts ++ rest /\
   (Z.to_nat 10 <= length (zeros 10))%nat /\
   (length pkts < 6)%nat /\
   @oceanic_veo250_transfer tiny_header sim _ s2
     (read_command (0 / 2 + Z.of_nat (length pkts))) 6 (zeros 4) 4
     = Returns (DEVICE_STATUS_PROTOCOL, [5; 6; 0; NAK], s') /\
   DEVICE_STATUS_PROTOCOL <> DEVICE_STATUS_SUCCESS) /\
  @oceanic_veo250_device_read tiny_header sim _ 6 veo250_handle 0
    (zeros 10) 10 s
    = Returns (DEVICE_STATUS_PROTOCOL, [1; 2; 3; 4; 0; 0; 0; 0; 0; 0], s').
Proof.
  intros pkts rest s s2 s'.
  assert (H1 : 0 < 2) by lia.
  assert (H2 : 0 <= 0) by lia.
  assert (H3 : 0 <= 10 < 2 ^ 32) by lia.
  assert (H4 : 0 + 10 <= 2 ^ 32) by lia.
  assert (H5 : 0 mod 2 = 0) by reflexivity.
  assert (H6 : 10 mod 2 = 0) by reflexivity.
  assert (H7 : 2 * Z.of_nat (length pkts) < 10) by (simpl; lia).
  assert (H8 : Forall (well_formed_packet (hdr := tiny_header)) pkts).
  { repeat constructor; simpl; unfold MAXRETRIES; lia. }
  assert (H9 : rx s = packets_script pkts ++ rest) by reflexivity.
  assert (H10 : (Z.to_nat 10 <= length (zeros 10))%nat) by (simpl; lia).
  assert (H11 : (length pkts < 6)%nat) by (simpl; lia).
  assert (H12 : @oceanic_veo250_transfer tiny_header sim _ s2
     (read_command (0 / 2 + Z.of_nat (length pkts))) 6 (zeros 4) 4
     = Returns (DEVICE_STATUS_PROTOCOL, [5; 6; 0; NAK], s')) by reflexivity.
  assert (H13 : DEVICE_STATUS_PROTOCOL <> DEVICE_STATUS_SUCCESS)
    by discriminate.
  split; [repeat (split; [assumption |]); assumption |].
  exact (@failed_read_keeps_earlier_packets tiny_header 6 s s' pkts rest 0 10
           (zeros 10) [5; 6; 0; NAK] DEVICE_STATUS_PROTOCOL
           H1 H2 H3 H4 H5 H6 H7 H8 H9 H10 H11 H12 H13).
Defined.

(** *** Instances of the further theorems *)

(** The banner arrives intact, and with its first byte changed. *)
Lemma handshake_checks_banner_witness :
  let good := handshake_response in
  let bad := 0x51 :: tl handshake_response in
  let s := sim_init [RxBytes good] in
  let t := sim_init [RxBytes bad] in
  let events := [EvWrite [0x98; 0x00]; EvDrain] in
  (oceanic_veo250_send s [0x98; 0x00] 2
     = (DEVICE_STATUS_SUCCESS, sim_after s [RxBytes good] events) /\
   serial_read (sim_after s [RxBytes good] events) 14
     = ((14, good), sim_after s [] (events ++ [EvRead 14])) /\
   length good = 14%nat /\
   oceanic_veo250_handshake s
     = (DEVICE_STATUS_SUCCESS, sim_after s [] (events ++ [EvRead 14]))) /\
  (oceanic_veo250_send t [0x98; 0x00] 2
     = (DEVICE_STATUS_SUCCESS, sim_after t [RxBytes bad] events) /\
   serial_read (sim_after t [RxBytes bad] events) 14
     = ((14, bad), sim_after t [] (events ++ [EvRead 14])) /\
   length bad = 14%nat /\
   bad <> handshake_response /\
   oceanic_veo250_handshake t
     = (DEVICE_STATUS_PROTOCOL, sim_after t [] (events ++ [EvRead 14]))).
Proof.
  intros good bad s t events. split.
  - assert (Hs : oceanic_veo250_send s [0x98; 0x00] 2
      = (DEVICE_STATUS_SUCCESS, sim_after s [RxBytes good] events))
      by reflexivity.
    assert (Hr : serial_read (sim_after s [RxBytes good] events) 14
      = ((14, good), sim_after s [] (events ++ [EvRead 14]))) by reflexivity.
    assert (Hlen : length good = 14%nat) by reflexivity.
    split; [exact Hs |]. split; [exact Hr |]. split; [exact Hlen |].
    exact (proj1 (handshake_checks_banner s _ _ _ good Hs Hr Hlen) eq_refl).
  - assert (Hs : oceanic_veo250_send t [0x98; 0x00] 2
      = (DEVICE_STATUS_SUCCESS, sim_after t [RxBytes bad] events))
      by reflexivity.
    assert (Hr : serial_read (sim_after t [RxBytes bad] events) 14
      = ((14, bad), sim_after t [] (events ++ [EvRead 14]))) by reflexivity.
    assert (Hlen : length bad = 14%nat) by reflexivity.
    assert (Hne : bad <> handshake_response) by discriminate.
    split; [exact Hs |]. split; [exact Hr |]. split; [exact Hlen |].
    split; [exact Hne |].
    exact (proj2 (handshake_checks_banner t _ _ _ bad Hs Hr Hlen) Hne).
Defined.

(** A transfer that succeeds on the frame 1 2 3 0xA5. *)
Lemma transfer_success_validates_witness :
  let s := sim_init (packet_script 0 [1; 2]) in
  let s' := sim_after s [] (packet_events (hdr := tiny_header) [0x90; 0x00] 0) in
  @oceanic_veo250_transfer tiny_header sim _ s [0x90; 0x00] 2 (zeros 4) 4
    = Returns (DEVICE_STATUS_SUCCESS, [1; 2; 3; NAK], s') /\
  byte_at [1; 2; 3; NAK] 2 = checksum_add_uint8 [1; 2; 3; NAK] 2 0 /\
  byte_at [1; 2; 3; NAK] 3 = NAK.
Proof.
  intros s s'.
  assert (H : @oceanic_veo250_transfer tiny_header sim _ s [0x90; 0x00] 2
                (zeros 4) 4
              = Returns (DEVICE_STATUS_SUCCESS, [1; 2; 3; NAK], s'))
    by reflexivity.
  split; [exact H |].
  exact (proj2 (@transfer_success_validates tiny_header sim _ s s'
                  [0x90; 0x00] (zeros 4) [1; 2; 3; NAK] 2 4 H)).
Defined.

(** A transfer on a line that stays silent times out: the acknowledgement
    read returned 0. *)
Lemma transfer_status_range_witness :
  let s := sim_init [] in
  let s' := sim_after s [] (attempt [0x90; 0x00]) in
  @oceanic_veo250_transfer tiny_header sim _ s [0x90; 0x00] 2 (zeros 4) 4
    = Returns (DEVICE_STATUS_TIMEOUT, zeros 4, s') /\
  exists (s1 : sim) (size n : Z) (bytes : list Z),
    (size = 1 \/ size = 2 + 2) /\
    serial_read s1 size = ((n, bytes), s') /\
    n <> size /\ DEVICE_STATUS_TIMEOUT = EXITCODE n.
Proof.
  intros s s'.
  assert (H : @oceanic_veo250_transfer tiny_header sim _ s [0x90; 0x00] 2
                (zeros 4) 4
              = Returns (DEVICE_STATUS_TIMEOUT, zeros 4, s')) by reflexivity.
  split; [exact H |].
  exact (proj2 (@transfer_status_range tiny_header sim _ s s' [0x90; 0x00]
                  (zeros 4) (zeros 4) 2 4 DEVICE_STATUS_TIMEOUT H)
           (or_intror eq_refl)).
Defined.

(** A version query that fails on a wrong checksum, and one that succeeds,
    both into a buffer of nines. *)
Lemma version_result_witness :
  let s := sim_init [RxBytes [ACK]; RxBytes [1; 2; 4; NAK]] in
  let t := sim_init [RxBytes [ACK]; RxBytes [1; 2; 3; NAK]] in
  let events := packet_events (hdr := tiny_header) [0x90; 0x00] 0 in
  (@oceanic_veo250_device_version tiny_header sim _ veo250_handle [9; 9; 9] 3
     s = Returns (DEVICE_STATUS_PROTOCOL, [9; 9; 9], sim_after s [] events) /\
   DEVICE_STATUS_PROTOCOL <> DEVICE_STATUS_SUCCESS /\
   [9; 9; 9] = [9; 9; 9]) /\
  (@oceanic_veo250_device_version tiny_header sim _ veo250_handle [9; 9; 9] 3
     t = Returns (DEVICE_STATUS_SUCCESS, [1; 2; 9], sim_after t [] events) /\
   2 <= 3 /\
   exists (t1 : sim) (bytes : list Z),
     @transfer_loop sim _ (S (Z.to_nat MAXRETRIES)) t [0x90; 0x00] 2 0 NAK
       = Returns (inr ACK, t1) /\
     serial_read t1 (2 + 2) = ((2 + 2, bytes), sim_after t [] events) /\
     let frame := read_into (zeros (2 + 2)) (2 + 2) bytes in
     length frame = Z.to_nat (2 + 2) /\
     byte_at frame 2 = checksum_add_uint8 frame 2 0 /\
     byte_at frame (2 + 1) = NAK /\
     [1; 2; 9] = firstn (Z.to_nat 2) frame ++ skipn (Z.to_nat 2) [9; 9; 9]).
Proof.
  intros s t events. split.
  - assert (H : @oceanic_veo250_device_version tiny_header sim _
                  veo250_handle [9; 9; 9] 3 s
                = Returns (DEVICE_STATUS_PROTOCOL, [9; 9; 9],
                           sim_after s [] events)) by reflexivity.
    assert (Hne : DEVICE_STATUS_PROTOCOL <> DEVICE_STATUS_SUCCESS)
      by discriminate.
    split; [exact H |]. split; [exact Hne |].
    exact (proj1 (@version_result tiny_header sim _ veo250_handle [9; 9; 9]
                    [9; 9; 9] 3 s _ DEVICE_STATUS_PROTOCOL H) Hne).
  - assert (H : @oceanic_veo250_device_version tiny_header sim _
                  veo250_handle [9; 9; 9] 3 t
                = Returns (DEVICE_STATUS_SUCCESS, [1; 2; 9],
                           sim_after t [] events)) by reflexivity.
    split; [exact H |].
    exact (proj2 (@version_result tiny_header sim _ veo250_handle [9; 9; 9]
                    [1; 2; 9] 3 t _ DEVICE_STATUS_SUCCESS H) eq_refl).
Defined.

(** A read of 4 bytes into a buffer of 6 whose second packet never
    arrives. *)
Lemma read_stays_in_buffer_witness :
  let s := sim_init (packet_script 0 [1; 2]) in
  let data := [9; 9; 9; 9; 9; 9] in
  exists s',
    (0 < 2 /\ 0 <= 4 < 2 ^ 32 /\ (Z.to_nat 4 <= length data)%nat /\
     @oceanic_veo250_device_read tiny_header sim _ 3 veo250_handle 0 data 4 s
       = Returns (DEVICE_STATUS_TIMEOUT, [1; 2; 9; 9; 9; 9], s')) /\
    length [1; 2; 9; 9; 9; 9] = length data /\
    skipn (Z.to_nat 4) [1; 2; 9; 9; 9; 9] = skipn (Z.to_nat 4) data.
Proof.
  intros s data. eexists.
  assert (H1 : 0 < 2) by lia.
  assert (H2 : 0 <= 4 < 2 ^ 32) by lia.
  assert (H3 : (Z.to_nat 4 <= length data)%nat) by (simpl; lia).
  assert (H4 : @oceanic_veo250_device_read tiny_header sim _ 3 veo250_handle
                 0 data 4 s
               = Returns (DEVICE_STATUS_TIMEOUT, [1; 2; 9; 9; 9; 9], _))
    by reflexivity.
  split; [split; [exact H1 | split; [exact H2 | split; [exact H3 | exact H4]]] |].
  exact (@read_stays_in_buffer tiny_header sim _ 3 veo250_handle 0 4 data
           [1; 2; 9; 9; 9; 9] s _ DEVICE_STATUS_TIMEOUT H1 H2 H3 H4).
Defined.

(** A read at the odd address 1 with packets of 2 bytes, and one at
    address 2. *)
Lemma read_returns_or_asserts_witness :
  let s := sim_init [] in
  (device_is_oceanic_veo250 veo250_handle = true /\ 0 < 2 /\
   0 <= 4 < 2 ^ 32) /\
  (1 mod 2 <> 0 /\
   @oceanic_veo250_device_read tiny_header sim _ 3 veo250_handle 1 (zeros 4)
     4 s = AssertionFailed) /\
  (2 mod 2 = 0 /\ 4 mod 2 = 0 /\ 4 / 2 < Z.of_nat 3 /\
   exists rc data' s',
     @oceanic_veo250_device_read tiny_header sim _ 3 veo250_handle 2
       (zeros 4) 4 s = Returns (rc, data', s')).
Proof.
  intros s.
  assert (H1 : device_is_oceanic_veo250 veo250_handle = true) by reflexivity.
  assert (H2 : 0 < 2) by lia.
  assert (H3 : 0 <= 4 < 2 ^ 32) by lia.
  split; [split; [exact H1 | split; [exact H2 | exact H3]] |]. split.
  - assert (Hodd : 1 mod 2 <> 0) by discriminate.
    split; [exact Hodd |].
    exact (proj1 (@read_returns_or_asserts tiny_header sim _ 3 veo250_handle
                    1 4 (zeros 4) s H1 H2 H3) (or_introl Hodd)).
  - assert (Ha : 2 mod 2 = 0) by reflexivity.
    assert (Hs : 4 mod 2 = 0) by reflexivity.
    assert (Hf : 4 / 2 < Z.of_nat 3) by reflexivity.
    split; [exact Ha |]. split; [exact Hs |]. split; [exact Hf |].
    exact (proj2 (@read_returns_or_asserts tiny_header sim _ 3 veo250_handle
                    2 4 (zeros 4) s H1 H2 H3) Ha Hs Hf).
Defined.

(** Four bytes read at once, and as two reads of one packet each. *)
Lemma read_in_two_parts_witness :
  let s := sim_init (packets_script [(O, [1; 2]); (1%nat, [3; 4])]) in
  (device_is_oceanic_veo250 veo250_handle = true /\ 0 < 2 /\ 0 <= 0 /\
   0 mod 2 = 0 /\ 0 <= 2 /\ 2 mod 2 = 0 /\ 0 <= 2 /\ 2 mod 2 = 0 /\
   2 + 2 < 2 ^ 32 /\ 0 + 2 < 2 ^ 32 /\
   (Z.to_nat (2 + 2) <= length (zeros 4))%nat /\
   2 / 2 < Z.of_nat 2 /\ 2 / 2 < Z.of_nat 2 /\ (2 + 2) / 2 < Z.of_nat 3) /\
  @oceanic_veo250_device_read tiny_header sim _ 3 veo250_handle 0 (zeros 4)
    (2 + 2) s
  = match @oceanic_veo250_device_read tiny_header sim _ 2 veo250_handle 0
            (zeros 4) 2 s with
    | Returns (DEVICE_STATUS_SUCCESS, data1, s1) =>
        match @oceanic_veo250_device_read tiny_header sim _ 2 veo250_handle
                (0 + 2) (skipn (Z.to_nat 2) data1) 2 s1 with
        | Returns (rc, data2, s2) =>
            Returns (rc, firstn (Z.to_nat 2) data1 ++ data2, s2)
        | AssertionFailed => AssertionFailed
        | OutOfFuel => OutOfFuel
        end
    | r => r
    end.
Proof.
  intros s.
  assert (H1 : device_is_oceanic_veo250 veo250_handle = true) by reflexivity.
  assert (H2 : 0 < 2) by lia.
  assert (H3 : 0 <= 0) by lia.
  assert (H4 : 0 mod 2 = 0) by reflexivity.
  assert (H5 : 0 <= 2) by lia.
  assert (H6 : 2 mod 2 = 0) by reflexivity.
  assert (H7 : 2 + 2 < 2 ^ 32) by lia.
  assert (H8 : 0 + 2 < 2 ^ 32) by lia.
  assert (H9 : (Z.to_nat (2 + 2) <= length (zeros 4))%nat) by (simpl; lia).
  assert (H10 : 2 / 2 < Z.of_nat 2) by reflexivity.
  assert (H11 : (2 + 2) / 2 < Z.of_nat 3) by reflexivity.
  split; [repeat (split; [assumption |]); assumption |].
  exact (@read_in_two_parts tiny_header sim _ 3 2 2 veo250_handle 0 2 2
           (zeros 4) s H1 H2 H3 H4 H5 H6 H5 H6 H7 H8 H9 H10 H10 H11).
Defined.

(** The packet number 70000 goes out as 4464 = 70000 - 65536. *)
Lemma read_command_number_witness :
  0 <= 70000 /\
  byte_at (read_command 70000) 1 + 256 * byte_at (read_command 70000) 2
    = 70000 mod 65536.
Proof.
  assert (H : 0 <= 70000) by lia.
  split; [exact H |].
  exact (proj1 (proj2 (proj2 (read_command_number 70000 H)))).
Defined.

Lemma read_command_injective_witness :
  0 <= 2047 < 65536 /\ read_command 2047 = read_command 2047 /\ 2047 = 2047.
Proof.
  assert (H : 0 <= 2047 < 65536) by lia.
  split; [exact H |]. split; [reflexivity |].
  exact (read_command_injective 2047 2047 H H eq_refl).
Defined.

(** A transfer that is answered by two bytes 0xA5 and then by silence. *)
Lemma transfer_wire_bound_witness :
  let s := sim_init [RxBytes [NAK]; RxBytes [NAK]] in
  let s' := sim_after s [] (attempts 3 [0x90; 0x00]) in
  @oceanic_veo250_transfer tiny_header sim _ s [0x90; 0x00] 2 (zeros 4) 4
    = Returns (DEVICE_STATUS_TIMEOUT, zeros 4, s') /\
  exists (n : nat) (rest : list rx_item) (tail : list event),
    (1 <= n <= S (Z.to_nat MAXRETRIES))%nat /\
    (tail = [EvRead (2 + 2)] \/
     tail = [] /\ DEVICE_STATUS_TIMEOUT <> DEVICE_STATUS_SUCCESS) /\
    s' = sim_after s rest (attempts n (wire [0x90; 0x00] 2) ++ tail).
Proof.
  intros s s'.
  assert (H : @oceanic_veo250_transfer tiny_header sim _ s [0x90; 0x00] 2
                (zeros 4) 4
              = Returns (DEVICE_STATUS_TIMEOUT, zeros 4, s')) by reflexivity.
  split; [exact H |].
  exact (@transfer_wire_bound tiny_header s s' [0x90; 0x00] (zeros 4)
           (zeros 4) 2 4 DEVICE_STATUS_TIMEOUT H).
Defined.

(** The version query answered after one NAK. *)
Lemma version_end_to_end_witness :
  let s := sim_init (packet_script 1 [7; 8]) in
  (0 <= 2 <= 3 /\
   rx s = packet_script 1 [7; 8] ++ [] /\
   well_formed_packet (hdr := tiny_header) (1%nat, [7; 8])) /\
  @oceanic_veo250_device_version tiny_header sim _ veo250_handle [9; 9; 9] 3 s
    = Returns (DEVICE_STATUS_SUCCESS, [7; 8; 9],
               sim_after s []
                 (packet_events (hdr := tiny_header) [0x90; 0x00] 1)).
Proof.
  intros s.
  assert (H1 : 0 <= 2 <= 3) by lia.
  assert (H2 : rx s = packet_script 1 [7; 8] ++ []) by reflexivity.
  assert (H3 : well_formed_packet (hdr := tiny_header) (1%nat, [7; 8])).
  { split; simpl; unfold MAXRETRIES; lia. }
  split; [split; [exact H1 | split; [exact H2 | exact H3]] |].
  exact (@version_end_to_end tiny_header s 1 [7; 8] [9; 9; 9] 3 [] H1 H2 H3).
Defined.

(** A dump of a memory of 4 bytes into a buffer of 5. *)
Lemma dump_end_to_end_witness :
  let pkts := [(O, [1; 2]); (2%nat, [3; 4])] in
  let s := sim_init (packets_script pkts) in
  (0 < 2 /\ 0 <= 4 < 2 ^ 32 /\ 4 = 2 * Z.of_nat (length pkts) /\
   Forall (well_formed_packet (hdr := tiny_header)) pkts /\
   rx s = packets_script pkts ++ [] /\ 4 <= 5 /\
   (Z.to_nat 4 <= length [9; 9; 9; 9; 9])%nat /\ (length pkts < 3)%nat) /\
  @oceanic_veo250_device_dump tiny_header sim _ 3 veo250_handle
    [9; 9; 9; 9; 9] 5 (Some 0) s
    = Returns (DEVICE_STATUS_SUCCESS, [1; 2; 3; 4; 9], Some 4,
               sim_after s [] (read_events (hdr := tiny_header) 0 pkts)).
Proof.
  intros pkts s.
  assert (H1 : 0 < 2) by lia.
  assert (H2 : 0 <= 4 < 2 ^ 32) by lia.
  assert (H3 : 4 = 2 * Z.of_nat (length pkts)) by reflexivity.
  assert (H4 : Forall (well_formed_packet (hdr := tiny_header)) pkts).
  { repeat constructor; simpl; unfold MAXRETRIES; lia. }
  assert (H5 : rx s = packets_script pkts ++ []) by reflexivity.
  assert (H6 : 4 <= 5) by lia.
  assert (H7 : (Z.to_nat 4 <= length [9; 9; 9; 9; 9])%nat) by (simpl; lia).
  assert (H8 : (length pkts < 3)%nat) by (simpl; lia).
  split; [repeat (split; [assumption |]); assumption |].
  exact (@dump_end_to_end tiny_header 3 s pkts [] 5 0 [9; 9; 9; 9; 9]
           H1 H2 H3 H4 H5 H6 H7 H8).
Defined.

(** Open on a host whose device stays silent, and on one where
    serial_set_dtr fails. *)
Lemma open_outcome_witness :
  let quiet := mkHost (sim_init []) false false false false false false [] in
  let stuck := mkHost (sim_init []) false false false true false false [] in
  (is_open quiet = false /\
   exists h',
     oceanic_veo250_device_open (Some None) true sample_port quiet
       = (DEVICE_STATUS_SUCCESS, Some veo250_handle, true, h') /\
     is_open h' = true /\
     history h' = history quiet ++ open_history sample_port) /\
  (is_open stuck = false /\
   exists h',
     oceanic_veo250_device_open (Some None) true sample_port stuck
       = (DEVICE_STATUS_IO, Some None, false, h') /\
     is_open h' = false).
Proof.
  intros quiet stuck. split.
  - assert (Hc : is_open quiet = false) by reflexivity.
    split; [exact Hc |].
    assert (E : exists h',
      oceanic_veo250_device_open (Some None) true sample_port quiet
        = (DEVICE_STATUS_SUCCESS, Some veo250_handle, true, h'))
      by (eexists; vm_compute; reflexivity).
    destruct E as [h' E]. exists h'. split; [exact E |].
    pose proof (open_outcome quiet (Some None) true sample_port Hc) as H.
    rewrite E in H. destruct H as [_ [Hok _]].
    destruct (Hok eq_refl) as [_ [_ [Hi Hh]]].
    split; [exact Hi | exact Hh].
  - assert (Hc : is_open stuck = false) by reflexivity.
    split; [exact Hc |].
    assert (E : exists h',
      oceanic_veo250_device_open (Some None) true sample_port stuck
        = (DEVICE_STATUS_IO, Some None, false, h'))
      by (eexists; vm_compute; reflexivity).
    destruct E as [h' E]. exists h'. split; [exact E |].
    pose proof (open_outcome stuck (Some None) true sample_port Hc) as H.
    rewrite E in H. destruct H as [_ [_ Hbad]].
    assert (Hne : DEVICE_STATUS_IO <> DEVICE_STATUS_SUCCESS) by discriminate.
    exact (proj2 (proj2 (Hbad Hne))).
Defined.

(** A session on a host whose line cannot be closed cleanly. *)
Lemma open_then_close_witness :
  let h := mkHost (mkSim [] false true []) false false false false false
             false [] in
  setup_works h = true /\
  exists h1 h2,
    oceanic_veo250_device_open (Some None) true sample_port h
      = (DEVICE_STATUS_SUCCESS, Some veo250_handle, true, h1) /\
    oceanic_veo250_device_close veo250_handle h1
      = (DEVICE_STATUS_IO, h2, true) /\
    is_open h2 = false /\
    history h2 = history h ++ open_history sample_port ++ close_history.
Proof.
  intros h.
  assert (Hs : setup_works h = true) by reflexivity.
  split; [exact Hs |].
  assert (E : exists h1,
    oceanic_veo250_device_open (Some None) true sample_port h
      = (DEVICE_STATUS_SUCCESS, Some veo250_handle, true, h1))
    by (eexists; vm_compute; reflexivity).
  destruct E as [h1 E]. exists h1.
  pose proof (open_then_close h None sample_port Hs) as H.
  rewrite E in H. destruct H as [_ [handle [Hh H]]].
  inversion Hh; subst handle.
  destruct (oceanic_veo250_device_close veo250_handle h1)
    as [[st2 h2] freed].
  destruct H as [Hst [Hfreed [Hopen Hhist]]].
  exists h2. rewrite Hst, Hfreed.
  split; [exact E |]. split; [reflexivity |].
  split; [exact Hopen | exact Hhist].
Defined.
